(** * PINVIT tutorial notebook (ngsPETSc): a store-passing model

    The notebook [docs/src/notebooks/Vectors and Matrices.ipynb] drives a
    preconditioned inverse iteration through petsc4py objects.  This file
    embeds the two [stepChoice] definitions and the driver loop of the
    notebook over an explicit store of PETSc objects, with real numbers
    standing for Python floats (exact arithmetic), and proves properties
    of that code. *)

From Stdlib Require Import String.
From Stdlib Require Import Reals Lra Psatz List Arith Lia.
Import ListNotations.
Open Scope R_scope.

(** ** Dense linear algebra on lists (the contents of a PETSc [Vec]/[Mat]) *)

Module LA.

Definition vec := list R.
Definition mat := list (list R).

(** [x.dot(y)]: sum of the entrywise products. *)
Fixpoint dot (x y : vec) : R :=
  match x, y with
  | a :: x', b :: y' => a * b + dot x' y'
  | _, _ => 0
  end.

(** [c * x] for a scalar [c]. *)
Definition vscale (c : R) (x : vec) : vec := map (Rmult c) x.

(** [x + y] entry by entry. *)
Fixpoint vadd (x y : vec) : vec :=
  match x, y with
  | a :: x', b :: y' => (a + b) :: vadd x' y'
  | _, _ => []
  end.

Definition vzero (n : nat) : vec := repeat 0 n.

(** [Mat.mult]: one dot product per row. *)
Definition matvec (A : mat) (x : vec) : vec := map (fun row => dot row x) A.

(** A square matrix of order [n]. *)
Definition square (n : nat) (A : mat) : Prop :=
  length A = n /\ Forall (fun row => length row = n) A.

Definition symmetric (n : nat) (A : mat) : Prop :=
  forall x y, length x = n -> length y = n ->
    dot x (matvec A y) = dot (matvec A x) y.

Definition posdef (n : nat) (A : mat) : Prop :=
  forall x, length x = n -> x <> vzero n -> 0 < dot x (matvec A x).

Definition spd (n : nat) (A : mat) : Prop :=
  square n A /\ symmetric n A /\ posdef n A.

(** [u] and [w] span a plane. *)
Definition lin_indep (n : nat) (u w : vec) : Prop :=
  forall a b, vadd (vscale a u) (vscale b w) = vzero n -> a = 0 /\ b = 0.

End LA.
Import LA.

(** ** Small dense matrices handed to the dense eigensolver *)

(** [np.array([[m00, m01], [m10, m11]])]. *)
Record mat2 := Mat2 { m00 : R; m01 : R; m10 : R; m11 : R }.

(** ** Python outcomes *)

(** An exception is identified by the name of its class. *)
Definition exn := string.

Inductive result (X : Type) : Type :=
| Ok (x : X)
| Raise (e : exn).
Arguments Ok {X} x.
Arguments Raise {X} e.

Definition ZeroDivisionError : exn := "ZeroDivisionError"%string.
Definition TypeError : exn := "TypeError"%string.
Definition LinAlgError : exn := "LinAlgError"%string.

(** ** The store of PETSc objects *)

Definition handle := nat.

Inductive obj :=
| OVec (v : vec)          (* PETSc.Vec *)
| OMat (m : mat)          (* PETSc.Mat *)
| OPC (b : mat).          (* PETSc.PC, set up: applies the linear map [b] *)

(** What the PETSc layer is asked to do, in order. *)
Inductive event :=
| ECreateVec (m new : handle)
| ESetRandom (x : handle)
| EDuplicate (x new : handle)
| EMult (m x y : handle)
| EDot (x y : handle)
| EApply (p x y : handle)
| EScale (x new : handle)
| EAdd (x y new : handle).

Record state := mkState {
  store : handle -> option obj;
  next : handle;
  out : list (nat * R);
  trace : list event
}.

Definition upd (s : handle -> option obj) (h : handle) (o : obj) : handle -> option obj :=
  fun k => if Nat.eqb k h then Some o else s k.

(** Store and exception monad: an exception keeps the store and the output
    produced so far. *)
Definition py (X : Type) : Type := state -> result X * state.

Definition ret {X} (x : X) : py X := fun st => (Ok x, st).
Definition raise {X} (e : exn) : py X := fun st => (Raise e, st).
Definition bind {X Y} (m : py X) (k : X -> py Y) : py Y :=
  fun st => match m st with
            | (Ok x, st') => k x st'
            | (Raise e, st') => (Raise e, st')
            end.

Notation "x <- m ;; k" := (bind m (fun x => k))
  (at level 61, m at next level, right associativity).
Notation "m ;; k" := (bind m (fun _ => k))
  (at level 61, right associativity).

Definition lift {X} (r : result X) : py X := fun st => (r, st).

Definition alloc (o : obj) : py handle :=
  fun st => (Ok (next st),
             mkState (upd (store st) (next st) o) (S (next st)) (out st) (trace st)).

Definition get_vec (h : handle) : py vec :=
  fun st => match store st h with
            | Some (OVec v) => (Ok v, st)
            | _ => (Raise TypeError, st)
            end.

Definition get_mat (h : handle) : py mat :=
  fun st => match store st h with
            | Some (OMat m) => (Ok m, st)
            | _ => (Raise TypeError, st)
            end.

Definition get_pc (h : handle) : py mat :=
  fun st => match store st h with
            | Some (OPC b) => (Ok b, st)
            | _ => (Raise TypeError, st)
            end.

(** Overwrite the entries of an existing [Vec]. *)
Definition set_vec (h : handle) (v : vec) : py unit :=
  fun st => match store st h with
            | Some (OVec _) =>
                (Ok tt, mkState (upd (store st) h (OVec v)) (next st) (out st) (trace st))
            | _ => (Raise TypeError, st)
            end.

Definition log (e : event) : py unit :=
  fun st => (Ok tt, mkState (store st) (next st) (out st) (trace st ++ [e])).

(** ** The petsc4py calls the notebook makes *)

(** [m.createVecLeft()]: a new vector with one entry per row of [m]. *)
Definition createVecLeft (m : handle) : py handle :=
  a <- get_mat m ;;
  h <- alloc (OVec (vzero (length a))) ;;
  log (ECreateVec m h) ;;
  ret h.

(** [x.setRandom()]: the entries drawn are the argument [r]; the size of
    the vector does not change. *)
Definition setRandom (x : handle) (r : vec) : py unit :=
  v <- get_vec x ;;
  set_vec x (firstn (length v) r ++ vzero (length v - length r)) ;;
  log (ESetRandom x).

(** [x.duplicate()]: a new vector of the same size; entries are not copied. *)
Definition duplicate (x : handle) : py handle :=
  v <- get_vec x ;;
  h <- alloc (OVec (vzero (length v))) ;;
  log (EDuplicate x h) ;;
  ret h.

(** [m.mult(x, y)]: y = m x. *)
Definition mult (m x y : handle) : py unit :=
  a <- get_mat m ;;
  v <- get_vec x ;;
  set_vec y (matvec a v) ;;
  log (EMult m x y).

(** [x.dot(y)]. *)
Definition vdot (x y : handle) : py R :=
  v <- get_vec x ;;
  u <- get_vec y ;;
  log (EDot x y) ;;
  ret (dot v u).

(** [p.apply(x, y)]: y = P^-1 x. *)
Definition pc_apply (p x y : handle) : py unit :=
  b <- get_pc p ;;
  v <- get_vec x ;;
  set_vec y (matvec b v) ;;
  log (EApply p x y).

(** [c * x] on a [Vec]: a scaled copy. *)
Definition vec_rmul (c : R) (x : handle) : py handle :=
  v <- get_vec x ;;
  h <- alloc (OVec (vscale c v)) ;;
  log (EScale x h) ;;
  ret h.

(** [x + y] on two [Vec]s: a new vector. *)
Definition vec_add (x y : handle) : py handle :=
  v <- get_vec x ;;
  u <- get_vec y ;;
  h <- alloc (OVec (vadd v u)) ;;
  log (EAdd x y h) ;;
  ret h.

(** Python's [a / b] on floats. *)
Definition py_div (a b : R) : py R :=
  if Req_dec_T b 0 then raise ZeroDivisionError else ret (a / b).

(** [print("[{}] Eigenvalue estimate: {}".format(it, v))]. *)
Definition print (it : nat) (v : R) : py unit :=
  fun st => (Ok tt, mkState (store st) (next st) (out st ++ [(it, v)]) (trace st)).

(** [for it in range(n)] threading the rebound variable. *)
Fixpoint for_range {X} (start n : nat) (body : nat -> X -> py X) (x : X) : py X :=
  match n with
  | O => ret x
  | S n' => x' <- body start x ;; for_range (S start) n' body x'
  end.

(** ** The notebook's code *)

Section Notebook.

(** The global names [A.mat], [M.mat] and [pc]. *)
Variables (hA hM hpc : handle).

(** [scipy.linalg.eigh(a=..., b=...)], which is not part of the repository:
    it returns the pair (eigenvalues, matrix of eigenvectors) or raises. *)
Variable eigh : mat2 -> mat2 -> result ((R * R) * mat2).

Definition step_policy := handle -> handle -> handle -> handle -> py (R * R).

(** First definition (cell 11):
<<
def stepChoice(Asc,Msc,w,u0):
    return (0.5,0.5)
>> *)
Definition stepChoice_const : step_policy :=
  fun Asc Msc w u0 => ret (0.5, 0.5).

(** Second definition (cell 15), Rayleigh-Ritz on span{u0, w}:
<<
def stepChoice(Asc,Msc,w,u0):
    Au0 = u0.duplicate(); Asc.mult(u0,Au0)
    Mu0 = u0.duplicate(); Msc.mult(u0,Mu0)
    Aw = w.duplicate(); Asc.mult(w,Aw)
    Mw = w.duplicate(); Msc.mult(w,Mw)
    smallA = np.array([[u0.dot(Au0),u0.dot(Aw)],[w.dot(Au0),w.dot(Aw)]])
    smallM = np.array([[u0.dot(Mu0),u0.dot(Mw)],[w.dot(Mu0),w.dot(Mw)]])
    _, evec = eigh(a=smallA, b=smallM)
    return (float(evec[0,0]),float(evec[1,0]))
>> *)
Definition stepChoice_rr : step_policy :=
  fun Asc Msc w u0 =>
    Au0 <- duplicate u0 ;; mult Asc u0 Au0 ;;
    Mu0 <- duplicate u0 ;; mult Msc u0 Mu0 ;;
    Aw <- duplicate w ;; mult Asc w Aw ;;
    Mw <- duplicate w ;; mult Msc w Mw ;;
    a00 <- vdot u0 Au0 ;; a01 <- vdot u0 Aw ;;
    a10 <- vdot w Au0 ;; a11 <- vdot w Aw ;;
    b00 <- vdot u0 Mu0 ;; b01 <- vdot u0 Mw ;;
    b10 <- vdot w Mu0 ;; b11 <- vdot w Mw ;;
    r <- lift (eigh (Mat2 a00 a01 a10 a11) (Mat2 b00 b01 b10 b11)) ;;
    ret (m00 (snd r), m10 (snd r)).

(** The loop of cells 14 and 15:
<<
for it in range(itMax):
        Au0 = u0.duplicate(); A.mat.mult(u0,Au0)
        Mu0 = u0.duplicate(); M.mat.mult(u0,Mu0)
        rho = Au0.dot(u0)/Mu0.dot(u0)
        print(...)
        u = Au0+rho*Mu0
        pc.apply(u,w)
        alpha = stepChoice(A.mat,M.mat,w,u0)
        u0 = alpha[0]*u0+alpha[1]*w
>>
    Its body is cut in three blocks and the call of [stepChoice]. *)

(** Lines 1-3 of the loop body: the Rayleigh quotient of the iterate. *)
Definition rayleigh (u0 : handle) : py (handle * handle * R) :=
  Au0 <- duplicate u0 ;; mult hA u0 Au0 ;;
  Mu0 <- duplicate u0 ;; mult hM u0 Mu0 ;;
  n <- vdot Au0 u0 ;;
  d <- vdot Mu0 u0 ;;
  rho <- py_div n d ;;
  ret (Au0, Mu0, rho).

(** Lines 5-6: the search direction, written into [w]. *)
Definition direction (Au0 Mu0 : handle) (rho : R) (w : handle) : py unit :=
  t <- vec_rmul rho Mu0 ;;
  u <- vec_add Au0 t ;;
  pc_apply hpc u w.

(** Line 8: the next iterate, a new vector bound to [u0]. *)
Definition update (alpha : R * R) (u0 w : handle) : py handle :=
  t1 <- vec_rmul (fst alpha) u0 ;;
  t2 <- vec_rmul (snd alpha) w ;;
  vec_add t1 t2.

(** One pass of the loop (the same text in cells 14 and 15); [stepChoice]
    is the definition in scope when the cell runs. *)
Definition loop_body (stepChoice : step_policy) (w : handle) (it : nat) (u0 : handle)
  : py handle :=
  r <- rayleigh u0 ;;
  let '(Au0, Mu0, rho) := r in
  print it (rho / (PI ^ 2)) ;;
  direction Au0 Mu0 rho w ;;
  alpha <- stepChoice hA hM w u0 ;;
  update alpha u0 w.

Definition itMax : nat := 10.

(** The loop alone, from the vectors [u0] and [w]. *)
Definition iterate (stepChoice : step_policy) (n : nat) (w u0 : handle) : py handle :=
  for_range 0 n (loop_body stepChoice w) u0.

(** A whole cell: allocation, random start [r], then [n] passes:
<<
itMax = 10
u0 = A.mat.createVecLeft()
w = A.mat.createVecLeft()
u0.setRandom()
>> *)
Definition driver_n (stepChoice : step_policy) (n : nat) (r : vec) : py handle :=
  u0 <- createVecLeft hA ;;
  w <- createVecLeft hA ;;
  setRandom u0 r ;;
  iterate stepChoice n w u0.

Definition driver (stepChoice : step_policy) (r : vec) : py handle :=
  driver_n stepChoice itMax r.

End Notebook.

(** ** The values a pass computes

    The same computations on the contents of the vectors, without the
    store; the lemmas of the next sections show that the notebook's code
    computes exactly these. *)

Section Values.

Variables (A M B : mat).
Variable eigh : mat2 -> mat2 -> result ((R * R) * mat2).

(** [Au0.dot(u0)/Mu0.dot(u0)] *)
Definition rq (u : vec) : R := dot (matvec A u) u / dot (matvec M u) u.

(** The vector [pc.apply] writes into [w] from [u = Au0+rho*Mu0]. *)
Definition search_dir (rho : R) (u : vec) : vec :=
  matvec B (vadd (matvec A u) (vscale rho (matvec M u))).

(** [alpha[0]*u0+alpha[1]*w] *)
Definition combine (alpha : R * R) (u w : vec) : vec :=
  vadd (vscale (fst alpha) u) (vscale (snd alpha) w).

(** [smallA] and [smallM] of the second [stepChoice]. *)
Definition small (S : mat) (u w : vec) : mat2 :=
  Mat2 (dot u (matvec S u)) (dot u (matvec S w))
       (dot w (matvec S u)) (dot w (matvec S w)).

Definition selector := vec -> vec -> result (R * R).

Definition sel_const : selector := fun w u => Ok (0.5, 0.5).

Definition sel_rr : selector := fun w u =>
  match eigh (small A u w) (small M u w) with
  | Ok r => Ok (m00 (snd r), m10 (snd r))
  | Raise e => Raise e
  end.

(** Outcome and printed lines of one pass from the iterate [u]. *)
Definition pass_val (sel : selector) (it : nat) (u : vec)
  : result vec * list (nat * R) :=
  if Req_dec_T (dot (matvec M u) u) 0 then (Raise ZeroDivisionError, [])
  else
    let rho := rq u in
    let w := search_dir rho u in
    match sel w u with
    | Ok alpha => (Ok (combine alpha u w), [(it, rho / PI ^ 2)])
    | Raise e => (Raise e, [(it, rho / PI ^ 2)])
    end.

(** Outcome and printed lines of [n] passes numbered from [start]. *)
Fixpoint iter_val (sel : selector) (start n : nat) (u : vec)
  : result vec * list (nat * R) :=
  match n with
  | O => (Ok u, [])
  | S n' =>
      match pass_val sel start u with
      | (Ok u', evs) =>
          let '(r, evs') := iter_val sel (S start) n' u' in (r, evs ++ evs')
      | (Raise e, evs) => (Raise e, evs)
      end
  end.

End Values.

(** ** Running the primitives on a store *)

Lemma bind_ok {X Y} (m : py X) (k : X -> py Y) st x st' :
  m st = (Ok x, st') -> bind m k st = k x st'.
Proof. intros H; unfold bind; now rewrite H. Qed.

Lemma bind_raise {X Y} (m : py X) (k : X -> py Y) st e st' :
  m st = (Raise e, st') -> bind m k st = (Raise e, st').
Proof. intros H; unfold bind; now rewrite H. Qed.

Lemma bind_assoc {X Y Z} (m : py X) (f : X -> py Y) (g : Y -> py Z) st :
  bind (bind m f) g st = bind m (fun x => bind (f x) g) st.
Proof. unfold bind; destruct (m st) as [[x | e] st']; reflexivity. Qed.

Lemma duplicate_run st x v :
  store st x = Some (OVec v) ->
  duplicate x st =
    (Ok (next st),
     mkState (upd (store st) (next st) (OVec (vzero (length v)))) (S (next st))
             (out st) (trace st ++ [EDuplicate x (next st)])).
Proof.
  intros H; unfold duplicate, bind, get_vec, alloc, log, ret; now rewrite H.
Qed.

Lemma createVecLeft_run st m a :
  store st m = Some (OMat a) ->
  createVecLeft m st =
    (Ok (next st),
     mkState (upd (store st) (next st) (OVec (vzero (length a)))) (S (next st))
             (out st) (trace st ++ [ECreateVec m (next st)])).
Proof.
  intros H; unfold createVecLeft, bind, get_mat, alloc, log, ret; now rewrite H.
Qed.

Lemma setRandom_run st x v r :
  store st x = Some (OVec v) ->
  setRandom x r st =
    (Ok tt,
     mkState (upd (store st) x (OVec (firstn (length v) r ++ vzero (length v - length r))))
             (next st) (out st) (trace st ++ [ESetRandom x])).
Proof.
  intros H; unfold setRandom, bind, get_vec, set_vec, log.
  rewrite H; cbn [store]; now rewrite H.
Qed.

Lemma mult_run st m x y a v v0 :
  store st m = Some (OMat a) ->
  store st x = Some (OVec v) ->
  store st y = Some (OVec v0) ->
  mult m x y st =
    (Ok tt,
     mkState (upd (store st) y (OVec (matvec a v))) (next st)
             (out st) (trace st ++ [EMult m x y])).
Proof.
  intros Hm Hx Hy; unfold mult, bind, get_mat, get_vec, set_vec, log.
  rewrite Hm, Hx; cbn [store]; now rewrite Hy.
Qed.

Lemma pc_apply_run st p x y b v v0 :
  store st p = Some (OPC b) ->
  store st x = Some (OVec v) ->
  store st y = Some (OVec v0) ->
  pc_apply p x y st =
    (Ok tt,
     mkState (upd (store st) y (OVec (matvec b v))) (next st)
             (out st) (trace st ++ [EApply p x y])).
Proof.
  intros Hm Hx Hy; unfold pc_apply, bind, get_pc, get_vec, set_vec, log.
  rewrite Hm, Hx; cbn [store]; now rewrite Hy.
Qed.

Lemma vdot_run st x y v u :
  store st x = Some (OVec v) ->
  store st y = Some (OVec u) ->
  vdot x y st =
    (Ok (dot v u),
     mkState (store st) (next st) (out st) (trace st ++ [EDot x y])).
Proof.
  intros Hx Hy; unfold vdot, bind, get_vec, log, ret; now rewrite Hx, Hy.
Qed.

Lemma vec_rmul_run st c x v :
  store st x = Some (OVec v) ->
  vec_rmul c x st =
    (Ok (next st),
     mkState (upd (store st) (next st) (OVec (vscale c v))) (S (next st))
             (out st) (trace st ++ [EScale x (next st)])).
Proof.
  intros H; unfold vec_rmul, bind, get_vec, alloc, log, ret; now rewrite H.
Qed.

Lemma vec_add_run st x y v u :
  store st x = Some (OVec v) ->
  store st y = Some (OVec u) ->
  vec_add x y st =
    (Ok (next st),
     mkState (upd (store st) (next st) (OVec (vadd v u))) (S (next st))
             (out st) (trace st ++ [EAdd x y (next st)])).
Proof.
  intros Hx Hy; unfold vec_add, bind, get_vec, alloc, log, ret; now rewrite Hx, Hy.
Qed.

Lemma py_div_run st a b :
  b <> 0 -> py_div a b st = (Ok (a / b), st).
Proof. intros H; unfold py_div; destruct (Req_dec_T b 0); [contradiction | reflexivity]. Qed.

Lemma py_div_zero st a : py_div a 0 st = (Raise ZeroDivisionError, st).
Proof. unfold py_div; destruct (Req_dec_T 0 0); [reflexivity | contradiction]. Qed.

(** Resolving a lookup in a store built by allocations and overwrites. *)
Ltac eqb_norm :=
  repeat match goal with
  | |- context [Nat.eqb ?a ?b] =>
      first [ replace (Nat.eqb a b) with true by (symmetry; apply Nat.eqb_eq; lia)
            | replace (Nat.eqb a b) with false by (symmetry; apply Nat.eqb_neq; lia) ]
  end.

Ltac lookup :=
  cbn [store next out trace]; unfold upd; eqb_norm; cbv iota;
  first [ eassumption | reflexivity ].

Ltac run_prim :=
  first [ apply duplicate_run | apply createVecLeft_run | apply setRandom_run
        | eapply mult_run | eapply pc_apply_run | eapply vdot_run
        | apply vec_rmul_run | eapply vec_add_run ]; lookup.

Ltac run :=
  repeat first [ rewrite bind_assoc
               | erewrite bind_ok by run_prim; cbn [store next out trace] ].

Section RunBlocks.

Variables (hA hM hpc : handle).
Variables (A M B : mat).

(** The store holds the three operators where the global names point. *)
Record globals (st : state) : Prop := {
  g_A : store st hA = Some (OMat A);
  g_M : store st hM = Some (OMat M);
  g_pc : store st hpc = Some (OPC B);
  g_A_lt : (hA < next st)%nat;
  g_M_lt : (hM < next st)%nat;
  g_pc_lt : (hpc < next st)%nat
}.

(** Running the first three lines of a pass. *)
Lemma rayleigh_run st hu u :
  globals st -> store st hu = Some (OVec u) -> (hu < next st)%nat ->
  dot (matvec M u) u <> 0 ->
  rayleigh hA hM hu st =
    (Ok (next st, S (next st), dot (matvec A u) u / dot (matvec M u) u),
     mkState
       (upd (upd (upd (upd (store st) (next st) (OVec (vzero (length u))))
                      (next st) (OVec (matvec A u)))
                 (S (next st)) (OVec (vzero (length u))))
            (S (next st)) (OVec (matvec M u)))
       (S (S (next st))) (out st)
       (trace st ++ [EDuplicate hu (next st); EMult hA hu (next st);
                     EDuplicate hu (S (next st)); EMult hM hu (S (next st));
                     EDot (next st) hu; EDot (S (next st)) hu])).
Proof.
  intros [HA HM HP LA LM LP] Hu Lu Hd.
  unfold rayleigh. run.
  erewrite bind_ok by (apply py_div_run; exact Hd).
  unfold ret. repeat rewrite <- app_assoc. reflexivity.
Qed.

(** The same lines when the denominator is zero. *)
Lemma rayleigh_zero st hu u :
  globals st -> store st hu = Some (OVec u) -> (hu < next st)%nat ->
  dot (matvec M u) u = 0 ->
  rayleigh hA hM hu st =
    (Raise ZeroDivisionError,
     mkState
       (upd (upd (upd (upd (store st) (next st) (OVec (vzero (length u))))
                      (next st) (OVec (matvec A u)))
                 (S (next st)) (OVec (vzero (length u))))
            (S (next st)) (OVec (matvec M u)))
       (S (S (next st))) (out st)
       (trace st ++ [EDuplicate hu (next st); EMult hA hu (next st);
                     EDuplicate hu (S (next st)); EMult hM hu (S (next st));
                     EDot (next st) hu; EDot (S (next st)) hu])).
Proof.
  intros [HA HM HP LA LM LP] Hu Lu Hd.
  unfold rayleigh. run. rewrite Hd.
  erewrite bind_raise by apply py_div_zero.
  repeat rewrite <- app_assoc. reflexivity.
Qed.

End RunBlocks.

(** ** The code computes the values *)

(** Objects that existed before are untouched, except possibly [hw]. *)
Definition frame_except (hw : handle) (st st' : state) : Prop :=
  (next st <= next st')%nat /\
  forall h, (h < next st)%nat -> h <> hw -> store st' h = store st h.

Definition frame (st st' : state) : Prop :=
  (next st <= next st')%nat /\
  forall h, (h < next st)%nat -> store st' h = store st h.

Lemma frame_except_trans hw st1 st2 st3 :
  frame_except hw st1 st2 -> frame_except hw st2 st3 -> frame_except hw st1 st3.
Proof.
  intros [L1 F1] [L2 F2]; split; [lia |].
  intros h Hh Hn. rewrite F2 by (auto; lia). now apply F1.
Qed.

Lemma print_run st it v :
  print it v st = (Ok tt, mkState (store st) (next st) (out st ++ [(it, v)]) (trace st)).
Proof. reflexivity. Qed.

Section Simulation.

Variables (hA hM hpc : handle).
Variables (A M B : mat).
Variable eigh : mat2 -> mat2 -> result ((R * R) * mat2).

#[local] Abbreviation globals := (globals hA hM hpc A M B).

Lemma globals_frame_except hw st st' w :
  globals st -> store st hw = Some (OVec w) ->
  frame_except hw st st' -> globals st'.
Proof.
  intros [HA HM HP LA LM LP] Hw [L F].
  assert (hA <> hw) by (intros ->; congruence).
  assert (hM <> hw) by (intros ->; congruence).
  assert (hpc <> hw) by (intros ->; congruence).
  constructor; try lia; rewrite F; auto.
Qed.

(** A store-level [stepChoice] computes a selector on values when it
    returns what the selector returns, prints nothing and leaves every
    existing object as it was. *)
Definition refines (sc : step_policy) (sel : selector) : Prop :=
  forall st hu hw u w,
    globals st ->
    store st hu = Some (OVec u) -> store st hw = Some (OVec w) ->
    (hu < next st)%nat -> (hw < next st)%nat ->
    exists st',
      sc hA hM hw hu st = (sel w u, st') /\ frame st st' /\ out st' = out st.

Lemma stepChoice_const_refines : refines stepChoice_const sel_const.
Proof.
  intros st hu hw u w _ _ _ _ _. exists st. repeat split; auto.
Qed.

Lemma stepChoice_rr_refines : refines (stepChoice_rr eigh) (sel_rr A M eigh).
Proof.
  intros st hu hw u w [HA HM HP LA LM LP] Hu Hw Lu Lw.
  unfold stepChoice_rr, sel_rr. run.
  unfold lift at 1, bind at 1.
  destruct (eigh _ _) as [r | e]; cbn [ret].
  - eexists; split; [reflexivity |].
    split; [split; cbn [store next] | reflexivity]; [lia |].
    intros h Hh. unfold upd. eqb_norm. reflexivity.
  - eexists; split; [reflexivity |].
    split; [split; cbn [store next] | reflexivity]; [lia |].
    intros h Hh. unfold upd. eqb_norm. reflexivity.
Qed.

(** One pass, from a store that holds the iterate [u] at [hu] and some
    vector at [hw]. *)
Lemma loop_body_sim sc sel :
  refines sc sel ->
  forall st hu hw u w0 it,
    globals st ->
    store st hu = Some (OVec u) -> store st hw = Some (OVec w0) ->
    (hu < next st)%nat -> (hw < next st)%nat -> hu <> hw ->
    exists r st',
      loop_body hA hM hpc sc hw it hu st = (r, st') /\
      out st' = out st ++ snd (pass_val A M B sel it u) /\
      frame_except hw st st' /\
      (exists w', store st' hw = Some (OVec w') /\
                  (dot (matvec M u) u <> 0 -> w' = search_dir A M B (rq A M u) u)) /\
      match r, fst (pass_val A M B sel it u) with
      | Ok hu', Ok u' =>
          store st' hu' = Some (OVec u') /\ (hu' < next st')%nat /\ hu' <> hw
      | Raise e, Raise e' => e = e'
      | _, _ => False
      end.
Proof.
  intros Href st hu hw u w0 it G Hu Hw Lu Lw Hne.
  pose proof G as [HA HM HP LA LM LP].
  assert (NA : hA <> hw) by (intros ->; congruence).
  assert (NM : hM <> hw) by (intros ->; congruence).
  assert (NP : hpc <> hw) by (intros ->; congruence).
  unfold pass_val, loop_body.
  destruct (Req_dec_T (dot (matvec M u) u) 0) as [Hd | Hd].
  - (* the division raises *)
    erewrite bind_raise by (apply (rayleigh_zero hA hM hpc A M B); eauto).
    do 2 eexists; split; [reflexivity |]. cbn [store next out trace fst snd].
    rewrite app_nil_r. split; [reflexivity |].
    split; [split; cbn [store next]; [lia |] |].
    { intros h Hh Hn. unfold upd. eqb_norm. reflexivity. }
    split; [| reflexivity].
    eexists. split; [unfold upd; eqb_norm; cbv iota; eassumption | tauto].
  - erewrite bind_ok by (apply (rayleigh_run hA hM hpc A M B); eauto).
    cbv beta iota.
    erewrite bind_ok by apply print_run. cbn [store next out trace].
    unfold direction. run.
    match goal with |- context [bind _ _ ?s] => set (st2 := s) end.
    destruct (Href st2 hu hw u (search_dir A M B (rq A M u) u)) as (st3 & Hsc & [L3 F3] & O3).
    + subst st2; constructor; cbn [next]; first [lia | lookup].
    + subst st2; lookup.
    + subst st2; lookup.
    + subst st2; cbn [next]; lia.
    + subst st2; cbn [next]; lia.
    + assert (Hu3 : store st3 hu = Some (OVec u)).
      { rewrite F3 by (subst st2; cbn [next]; lia). subst st2; lookup. }
      assert (Hw3 : store st3 hw = Some (OVec (search_dir A M B (rq A M u) u))).
      { rewrite F3 by (subst st2; cbn [next]; lia). subst st2; lookup. }
      assert (L23 : (next st < next st3)%nat) by (subst st2; cbn [next] in L3; lia).
      assert (F13 : forall h, (h < next st)%nat -> h <> hw -> store st3 h = store st h).
      { intros h Hh Hn. rewrite F3 by (subst st2; cbn [next]; lia).
        subst st2; cbn [store]; unfold upd; eqb_norm; reflexivity. }
      assert (O13 : out st3 = out st ++ [(it, rq A M u / PI ^ 2)]).
      { rewrite O3. subst st2. reflexivity. }
      clearbody st2.
      destruct (sel _ u) as [alpha | e] eqn:Hsel.
      * erewrite bind_ok by exact Hsc.
        unfold update. run. erewrite vec_add_run by lookup.
        cbn [store next out trace].
        do 2 eexists; split; [reflexivity |]. cbn [fst snd].
        split; [cbn [out]; exact O13 |].
        split; [split; cbn [store next]; [lia |] |].
        { intros h Hh Hn. unfold upd. eqb_norm. cbv iota. now apply F13. }
        split.
        { eexists. split; [| reflexivity].
          cbn [store]. unfold upd. eqb_norm. cbv iota. exact Hw3. }
        cbn [store next]. split; [| split; lia].
        unfold upd. eqb_norm. reflexivity.
      * erewrite bind_raise by exact Hsc.
        do 2 eexists; split; [reflexivity |]. cbn [fst snd].
        split; [exact O13 |].
        split; [split; [lia | exact F13] |].
        split; [eexists; split; [exact Hw3 | reflexivity] | reflexivity].
Qed.

(** The vector a run starts from: [setRandom] fills the [length A]
    entries of [u0] with the draw [r]. *)
Definition start_vec (r : vec) : vec :=
  firstn (length A) r ++ vzero (length A - length r).

(** The loop. *)
Lemma iterate_sim sc sel :
  refines sc sel ->
  forall n start st hu hw u w0,
    globals st ->
    store st hu = Some (OVec u) -> store st hw = Some (OVec w0) ->
    (hu < next st)%nat -> (hw < next st)%nat -> hu <> hw ->
    exists r st',
      for_range start n (loop_body hA hM hpc sc hw) hu st = (r, st') /\
      out st' = out st ++ snd (iter_val A M B sel start n u) /\
      frame_except hw st st' /\
      match r, fst (iter_val A M B sel start n u) with
      | Ok hu', Ok u' => store st' hu' = Some (OVec u')
      | Raise e, Raise e' => e = e'
      | _, _ => False
      end.
Proof.
  intros Href n; induction n as [| n IH]; intros start st hu hw u w0 G Hu Hw Lu Lw Hne.
  - exists (Ok hu), st. cbn. rewrite app_nil_r.
    repeat split; auto.
  - destruct (loop_body_sim sc sel Href st hu hw u w0 start G Hu Hw Lu Lw Hne)
      as (r1 & st1 & Hrun & Hout & Hfr & (w1 & Hw1 & _) & Hres).
    cbn [for_range iter_val].
    destruct (pass_val A M B sel start u) as [[u1 | e1] evs1];
      destruct r1 as [hu1 | e]; cbn [fst snd] in *; try contradiction.
    + destruct Hres as (Hu1 & Lu1 & Hne1).
      assert (G1 : globals st1) by (eapply globals_frame_except; eauto).
      assert (Lw1 : (hw < next st1)%nat) by (destruct Hfr; lia).
      destruct (IH (S start) st1 hu1 hw u1 w1 G1 Hu1 Hw1 Lu1 Lw1 Hne1)
        as (r2 & st2 & Hrun2 & Hout2 & Hfr2 & Hres2).
      exists r2, st2.
      erewrite bind_ok by exact Hrun.
      destruct (iter_val A M B sel (S start) n u1) as [r' evs']; cbn [fst snd] in *.
      split; [exact Hrun2 |].
      split; [rewrite Hout2, Hout; now rewrite app_assoc |].
      split; [eapply frame_except_trans; eauto | exact Hres2].
    + exists (Raise e), st1.
      erewrite bind_raise by exact Hrun.
      repeat split; auto; apply Hfr.
Qed.

(** A whole cell, from a store that holds the operators. *)
Lemma driver_sim sc sel :
  refines sc sel ->
  forall n r st,
    globals st ->
    exists res st',
      driver_n hA hM hpc sc n r st = (res, st') /\
      out st' = out st ++ snd (iter_val A M B sel 0 n (start_vec r)) /\
      frame st st' /\
      match res, fst (iter_val A M B sel 0 n (start_vec r)) with
      | Ok hu', Ok u' => store st' hu' = Some (OVec u')
      | Raise e, Raise e' => e = e'
      | _, _ => False
      end.
Proof.
  intros Href n r st G. pose proof G as [HA HM HP LA LM LP].
  unfold driver_n. run. unfold iterate.
  match goal with |- context [for_range 0 n _ _ ?s] => set (st1 := s) end.
  destruct (iterate_sim sc sel Href n 0%nat st1 (next st) (S (next st))
              (start_vec r) (vzero (length A)))
    as (res & st' & Hrun & Hout & [L F] & Hres).
  - subst st1; constructor; cbn [next]; first [lia | lookup].
  - subst st1. cbn [store]. unfold upd. eqb_norm. cbv iota.
    unfold start_vec, vzero. now rewrite repeat_length.
  - subst st1; lookup.
  - subst st1; cbn [next]; lia.
  - subst st1; cbn [next]; lia.
  - lia.
  - exists res, st'. split; [exact Hrun |].
    split; [rewrite Hout; subst st1; reflexivity |].
    split; [| exact Hres].
    subst st1; cbn [next store] in *. split; [lia |].
    intros h Hh. rewrite F by lia. unfold upd. eqb_norm. reflexivity.
Qed.

End Simulation.

(** ** Algebra of the vector operations *)

Section VectorAlgebra.

Lemma dot_comm (x y : vec) : dot x y = dot y x.
Proof.
  revert y; induction x as [| a x IH]; intros [| b y]; cbn; try reflexivity.
  rewrite IH; ring.
Qed.

Lemma dot_vscale_l c (x y : vec) : dot (vscale c x) y = c * dot x y.
Proof.
  revert y; induction x as [| a x IH]; intros [| b y]; cbn; try ring.
  unfold vscale in IH; rewrite IH; ring.
Qed.

Lemma dot_vscale_r c (x y : vec) : dot x (vscale c y) = c * dot x y.
Proof. now rewrite dot_comm, dot_vscale_l, dot_comm. Qed.

Lemma dot_vadd_l (x y z : vec) :
  length x = length y -> dot (vadd x y) z = dot x z + dot y z.
Proof.
  revert y z; induction x as [| a x IH]; intros [| b y] z H; cbn in *;
    try discriminate; try ring.
  destruct z as [| c z]; [ring |].
  rewrite IH by congruence. ring.
Qed.

Lemma dot_vadd_r (x y z : vec) :
  length x = length y -> dot z (vadd x y) = dot z x + dot z y.
Proof.
  intros H. rewrite dot_comm, dot_vadd_l by exact H.
  now rewrite (dot_comm x), (dot_comm y).
Qed.

Lemma length_vscale c (x : vec) : length (vscale c x) = length x.
Proof. apply length_map. Qed.

Lemma length_vadd (x y : vec) :
  length x = length y -> length (vadd x y) = length x.
Proof.
  revert y; induction x as [| a x IH]; intros [| b y] H; cbn in *;
    try discriminate; try reflexivity.
  now rewrite IH by congruence.
Qed.

Lemma length_matvec (S : mat) (x : vec) : length (matvec S x) = length S.
Proof. apply length_map. Qed.

Lemma length_vzero n : length (vzero n) = n.
Proof. apply repeat_length. Qed.



Lemma matvec_vscale (S : mat) c (x : vec) :
  matvec S (vscale c x) = vscale c (matvec S x).
Proof.
  unfold matvec, vscale at 2. rewrite map_map. apply map_ext.
  intros row. apply dot_vscale_r.
Qed.

Lemma matvec_vadd (S : mat) (x y : vec) :
  length x = length y ->
  matvec S (vadd x y) = vadd (matvec S x) (matvec S y).
Proof.
  intros H. induction S as [| row S IH]; cbn; [reflexivity |].
  unfold matvec in IH. rewrite IH. f_equal. now apply dot_vadd_r.
Qed.

Lemma dot_vzero_l n (x : vec) : dot (vzero n) x = 0.
Proof.
  revert x; induction n as [| n IH]; intros [| a x]; cbn; try reflexivity.
  unfold vzero in IH. rewrite IH. ring.
Qed.

Lemma vscale_zero (x : vec) : vscale 0 x = vzero (length x).
Proof.
  induction x as [| a x IH]; cbn; [reflexivity |].
  unfold vscale, vzero in IH. rewrite IH. f_equal. ring.
Qed.

Lemma vscale_one (x : vec) : vscale 1 x = x.
Proof.
  induction x as [| a x IH]; cbn; [reflexivity |].
  unfold vscale in IH. rewrite IH. f_equal. ring.
Qed.

Lemma vadd_vzero_r (x : vec) : vadd x (vzero (length x)) = x.
Proof.
  induction x as [| a x IH]; cbn; [reflexivity |].
  unfold vzero in IH. rewrite IH. f_equal. ring.
Qed.

(** The quadratic form of [S] on a combination of [u] and [w]. *)
Lemma quad_combine (S : mat) (a b : R) (u w : vec) :
  length u = length w ->
  dot (matvec S (combine (a, b) u w)) (combine (a, b) u w) =
    a * a * dot (matvec S u) u + a * b * dot (matvec S u) w
    + b * a * dot (matvec S w) u + b * b * dot (matvec S w) w.
Proof.
  intros H. unfold combine; cbn [fst snd].
  assert (L : length (vscale a u) = length (vscale b w))
    by (now rewrite !length_vscale).
  rewrite matvec_vadd by exact L.
  rewrite dot_vadd_l by (now rewrite !length_matvec).
  rewrite !dot_vadd_r by exact L.
  rewrite !matvec_vscale, !dot_vscale_l, !dot_vscale_r. ring.
Qed.

End VectorAlgebra.

(** ** The 2 x 2 symmetric-definite pencil

    [eigh] reads the lower triangles of its two arguments (its default),
    so the pencil it sees is given by the entries [m00], [m10], [m11]. *)

Definition pd2 (b : mat2) : Prop :=
  0 < m00 b /\ 0 < m00 b * m11 b - m10 b * m10 b.

(** [(x0, x1)] solves [a x = lam b x] for the symmetric matrices read from
    the lower triangles. *)
Definition eigpair (a b : mat2) (lam x0 x1 : R) : Prop :=
  m00 a * x0 + m10 a * x1 = lam * (m00 b * x0 + m10 b * x1) /\
  m10 a * x0 + m11 a * x1 = lam * (m10 b * x0 + m11 b * x1).

(** [x^T b x]. *)
Definition qform (b : mat2) (x0 x1 : R) : R :=
  m00 b * x0 * x0 + 2 * m10 b * x0 * x1 + m11 b * x1 * x1.

(** [det (a - t b)] and its coefficients. *)
Definition charpoly (a b : mat2) (t : R) : R :=
  (m00 a - t * m00 b) * (m11 a - t * m11 b)
  - (m10 a - t * m10 b) * (m10 a - t * m10 b).

Definition cD (b : mat2) : R := m00 b * m11 b - m10 b * m10 b.
Definition cB (a b : mat2) : R :=
  m00 a * m11 b + m11 a * m00 b - 2 * m10 a * m10 b.
Definition cC (a : mat2) : R := m00 a * m11 a - m10 a * m10 a.
Definition disc (a b : mat2) : R := cB a b * cB a b - 4 * cD b * cC a.

(** The two roots of [charpoly]. *)
Definition lam1 (a b : mat2) : R := (cB a b - sqrt (disc a b)) / (2 * cD b).
Definition lam2 (a b : mat2) : R := (cB a b + sqrt (disc a b)) / (2 * cD b).

Section Pencil.

Variables a b : mat2.
Hypothesis Hpd : pd2 b.

Lemma cD_pos : 0 < cD b.
Proof. unfold cD; apply Hpd. Qed.

Lemma charpoly_coeffs t : charpoly a b t = cD b * t * t - cB a b * t + cC a.
Proof. unfold charpoly, cD, cB, cC; ring. Qed.

Lemma disc_nonneg : 0 <= disc a b.
Proof.
  destruct Hpd as [H0 HD].
  assert (E : m00 b * m00 b * disc a b =
              (2 * cD b * m00 a - cB a b * m00 b) * (2 * cD b * m00 a - cB a b * m00 b)
              + 4 * cD b * ((m10 a * m00 b - m00 a * m10 b) * (m10 a * m00 b - m00 a * m10 b)))
    by (unfold disc, cD, cB, cC; ring).
  assert (P : 0 <= m00 b * m00 b * disc a b).
  { rewrite E. fold (cD b) in HD.
    pose proof (Rle_0_sqr (2 * cD b * m00 a - cB a b * m00 b)) as S1.
    pose proof (Rle_0_sqr (m10 a * m00 b - m00 a * m10 b)) as S2.
    unfold Rsqr in S1, S2. nra. }
  assert (Q : 0 < m00 b * m00 b) by nra.
  destruct (Rle_or_lt 0 (disc a b)) as [G | G]; [exact G | nra].
Qed.

Lemma sqrt_disc_sqr : sqrt (disc a b) * sqrt (disc a b) = disc a b.
Proof. apply sqrt_sqrt, disc_nonneg. Qed.

Lemma charpoly_complete t :
  4 * cD b * charpoly a b t =
  (2 * cD b * t - cB a b) * (2 * cD b * t - cB a b) - disc a b.
Proof. rewrite charpoly_coeffs; unfold disc; ring. Qed.

Lemma lam1_shift : 2 * cD b * lam1 a b - cB a b = - sqrt (disc a b).
Proof. pose proof cD_pos. unfold lam1; field; lra. Qed.

Lemma lam1_root : charpoly a b (lam1 a b) = 0.
Proof.
  pose proof cD_pos as HD.
  assert (E : 4 * cD b * charpoly a b (lam1 a b) = 0).
  { rewrite charpoly_complete, lam1_shift.
    pose proof sqrt_disc_sqr. nra. }
  nra.
Qed.

(** Every root of [charpoly] is at least [lam1]. *)
Lemma lam1_least t : charpoly a b t <= 0 -> lam1 a b <= t.
Proof.
  intros Ht. pose proof cD_pos as HD.
  pose proof (charpoly_complete t) as E.
  pose proof sqrt_disc_sqr as S2.
  pose proof (sqrt_pos (disc a b)) as S0.
  pose proof lam1_shift as L.
  assert (K : - sqrt (disc a b) <= 2 * cD b * t - cB a b) by nra.
  nra.
Qed.

(** A nonzero solution of the pencil gives a root. *)
Lemma eigpair_root mu x0 x1 :
  x0 <> 0 \/ x1 <> 0 -> eigpair a b mu x0 x1 -> charpoly a b mu = 0.
Proof.
  intros Hx [E1 E2]. unfold charpoly.
  set (r0 := m00 a - mu * m00 b). set (r1 := m10 a - mu * m10 b).
  set (r2 := m11 a - mu * m11 b).
  assert (F1 : r0 * x0 + r1 * x1 = 0) by (subst r0 r1; lra).
  assert (F2 : r1 * x0 + r2 * x1 = 0) by (subst r1 r2; lra).
  assert (G0 : (r0 * r2 - r1 * r1) * x0 = 0).
  { replace ((r0 * r2 - r1 * r1) * x0)
      with (r2 * (r0 * x0 + r1 * x1) - r1 * (r1 * x0 + r2 * x1)) by ring.
    rewrite F1, F2; ring. }
  assert (G1 : (r0 * r2 - r1 * r1) * x1 = 0).
  { replace ((r0 * r2 - r1 * r1) * x1)
      with (r0 * (r1 * x0 + r2 * x1) - r1 * (r0 * x0 + r1 * x1)) by ring.
    rewrite F1, F2; ring. }
  destruct Hx as [Hx | Hx].
  - apply Rmult_integral in G0; tauto.
  - apply Rmult_integral in G1; tauto.
Qed.

Lemma lam1_smallest mu x0 x1 :
  x0 <> 0 \/ x1 <> 0 -> eigpair a b mu x0 x1 -> lam1 a b <= mu.
Proof.
  intros Hx He. apply lam1_least. rewrite (eigpair_root mu x0 x1 Hx He). lra.
Qed.

(** The Rayleigh quotient of the first basis vector bounds [lam1]. *)
Lemma lam1_le_quotient : lam1 a b * m00 b <= m00 a.
Proof.
  destruct Hpd as [H0 HD].
  assert (Ht : charpoly a b (m00 a / m00 b) <= 0).
  { unfold charpoly.
    replace (m00 a - m00 a / m00 b * m00 b) with 0 by (field; lra).
    pose proof (Rle_0_sqr (m10 a - m00 a / m00 b * m10 b)) as S.
    unfold Rsqr in S. nra. }
  apply lam1_least in Ht.
  apply (Rmult_le_compat_r (m00 b)) in Ht; [| lra].
  replace (m00 a / m00 b * m00 b) with (m00 a) in Ht by (field; lra).
  exact Ht.
Qed.

Lemma qform_pos x0 x1 : x0 <> 0 \/ x1 <> 0 -> 0 < qform b x0 x1.
Proof.
  destruct Hpd as [H0 HD]. intros Hx. unfold qform.
  assert (E : m00 b * (m00 b * x0 * x0 + 2 * m10 b * x0 * x1 + m11 b * x1 * x1)
              = (m00 b * x0 + m10 b * x1) * (m00 b * x0 + m10 b * x1)
                + (m00 b * m11 b - m10 b * m10 b) * (x1 * x1)) by ring.
  assert (P : 0 < m00 b * (m00 b * x0 * x0 + 2 * m10 b * x0 * x1 + m11 b * x1 * x1)).
  { rewrite E.
    pose proof (Rle_0_sqr (m00 b * x0 + m10 b * x1)) as S1. unfold Rsqr in S1.
    destruct (Req_dec_T x1 0) as [Z | NZ].
    - subst x1. assert (x0 <> 0) by tauto.
      assert (0 < x0 * x0) by nra.
      assert (0 < m00 b * m00 b) by nra.
      assert (0 < (m00 b * m00 b) * (x0 * x0)) by (apply Rmult_lt_0_compat; assumption).
      nra.
    - assert (0 < x1 * x1) by nra. nra. }
  nra.
Qed.

End Pencil.

(** ** The dense eigensolver *)

(** What the notebook relies on from [scipy.linalg.eigh(a, b)], after its
    documentation: for a positive definite [b] it returns the eigenvalues
    in ascending order and a matrix whose columns are the eigenvectors,
    normalised so that [v^T b v = 1]; otherwise it raises [LinAlgError].
    Only the first column, the one the notebook reads, is constrained. *)
Definition eigh_spec (eigh : mat2 -> mat2 -> result ((R * R) * mat2)) : Prop :=
  forall a b,
    (pd2 b ->
     exists l1 l2 V,
       eigh a b = Ok ((l1, l2), V) /\
       eigpair a b l1 (m00 V) (m10 V) /\
       qform b (m00 V) (m10 V) = 1 /\
       forall mu x0 x1, x0 <> 0 \/ x1 <> 0 -> eigpair a b mu x0 x1 -> l1 <= mu) /\
    (~ pd2 b -> eigh a b = Raise LinAlgError).



(** A closed-form solver for the 2 x 2 case, used to instantiate the
    assumptions above: the eigenvalues are the roots of [charpoly], the
    first column solves [(a - lam1 b) x = 0], the second is [b]-orthogonal
    to it, and both are scaled to [b]-norm one. *)
Module Eigh2.

Definition pd2b (b : mat2) : bool :=
  if Rlt_dec 0 (m00 b) then if Rlt_dec 0 (cD b) then true else false else false.

(** A nonzero solution of [(a - lam b) x = 0] when [lam] is a root. *)
Definition pick (a b : mat2) (lam : R) : R * R :=
  let r0 := m00 a - lam * m00 b in
  let r1 := m10 a - lam * m10 b in
  if Req_dec_T r0 0 then
    if Req_dec_T r1 0 then (1, 0) else (r1, - r0)
  else (r1, - r0).

Definition normalize (b : mat2) (x : R * R) : R * R :=
  let q := sqrt (qform b (fst x) (snd x)) in (fst x / q, snd x / q).

(** A vector [b]-orthogonal to [x]. *)
Definition bperp (b : mat2) (x : R * R) : R * R :=
  (- (m10 b * fst x + m11 b * snd x), m00 b * fst x + m10 b * snd x).

Definition eigh2 (a b : mat2) : result ((R * R) * mat2) :=
  if pd2b b then
    let v := normalize b (pick a b (lam1 a b)) in
    let v' := normalize b (bperp b v) in
    Ok ((lam1 a b, lam2 a b), Mat2 (fst v) (fst v') (snd v) (snd v'))
  else Raise LinAlgError.

Lemma pd2b_true b : pd2 b -> pd2b b = true.
Proof.
  intros [H0 HD]. unfold pd2b, cD.
  destruct (Rlt_dec 0 (m00 b)); [| contradiction].
  destruct (Rlt_dec _ _); [reflexivity | contradiction].
Qed.

Lemma pd2b_false b : ~ pd2 b -> pd2b b = false.
Proof.
  intros H. unfold pd2b, cD.
  destruct (Rlt_dec 0 (m00 b)); [| reflexivity].
  destruct (Rlt_dec _ _); [| reflexivity].
  exfalso; apply H; split; assumption.
Qed.

Lemma pick_nonzero a b lam : fst (pick a b lam) <> 0 \/ snd (pick a b lam) <> 0.
Proof.
  unfold pick.
  destruct (Req_dec_T (m00 a - lam * m00 b) 0) as [E0 | N0].
  - destruct (Req_dec_T (m10 a - lam * m10 b) 0) as [E1 | N1]; cbn [fst snd].
    + left; lra.
    + left; exact N1.
  - cbn [fst snd]. right; lra.
Qed.

Lemma pick_eigpair a b lam :
  charpoly a b lam = 0 ->
  eigpair a b lam (fst (pick a b lam)) (snd (pick a b lam)).
Proof.
  unfold charpoly, pick, eigpair. intros Hp.
  destruct (Req_dec_T (m00 a - lam * m00 b) 0) as [E0 | N0];
    [destruct (Req_dec_T (m10 a - lam * m10 b) 0) as [E1 | N1] | ];
    cbn [fst snd]; split; nra.
Qed.

Lemma eigpair_scale a b lam x0 x1 c :
  eigpair a b lam x0 x1 -> eigpair a b lam (c * x0) (c * x1).
Proof.
  intros [E1 E2]; split.
  - replace (m00 a * (c * x0) + m10 a * (c * x1))
      with (c * (m00 a * x0 + m10 a * x1)) by ring.
    rewrite E1; ring.
  - replace (m10 a * (c * x0) + m11 a * (c * x1))
      with (c * (m10 a * x0 + m11 a * x1)) by ring.
    rewrite E2; ring.
Qed.

Lemma normalize_spec b x :
  pd2 b -> fst x <> 0 \/ snd x <> 0 ->
  exists c, 0 < c /\ c * c * qform b (fst x) (snd x) = 1 /\
            normalize b x = (c * fst x, c * snd x).
Proof.
  intros Hpd Hx.
  pose proof (qform_pos b Hpd _ _ Hx) as Q.
  pose proof (sqrt_lt_R0 _ Q) as S0.
  pose proof (sqrt_sqrt _ (Rlt_le _ _ Q)) as S2.
  exists (/ sqrt (qform b (fst x) (snd x))).
  split; [now apply Rinv_0_lt_compat |].
  split.
  - rewrite <- S2 at 3. field. lra.
  - unfold normalize. f_equal; field; lra.
Qed.

Lemma qform_scale b c x0 x1 :
  qform b (c * x0) (c * x1) = c * c * qform b x0 x1.
Proof. unfold qform; ring. Qed.

Theorem eigh2_spec : eigh_spec eigh2.
Proof.
  intros a b; split.
  - intros Hpd. unfold eigh2. rewrite (pd2b_true b Hpd).
    destruct (normalize_spec b (pick a b (lam1 a b)) Hpd (pick_nonzero _ _ _))
      as (c & Hc & Hq & Hn).
    do 3 eexists. split; [reflexivity |]. cbn [m00 m10].
    rewrite Hn; cbn [fst snd].
    split; [| split].
    + apply eigpair_scale, pick_eigpair, lam1_root; exact Hpd.
    + rewrite qform_scale. exact Hq.
    + intros mu x0 x1. apply lam1_smallest; exact Hpd.
  - intros Hn. unfold eigh2. now rewrite (pd2b_false b Hn).
Qed.

(** The second column: the solver returns a full [b]-orthonormal basis of
    eigenvectors with the eigenvalues in ascending order. *)

Lemma lam2_times_cD a b : pd2 b -> lam2 a b * cD b = cB a b - lam1 a b * cD b.
Proof. intros Hpd. pose proof (cD_pos b Hpd). unfold lam1, lam2. field. lra. Qed.

Lemma lam1_le_lam2 a b : pd2 b -> lam1 a b <= lam2 a b.
Proof.
  intros Hpd. pose proof (cD_pos b Hpd) as HD.
  pose proof (sqrt_pos (disc a b)) as S.
  unfold lam1, lam2, Rdiv.
  apply Rmult_le_compat_r; [| lra].
  apply Rlt_le, Rinv_0_lt_compat. lra.
Qed.

Lemma bperp_eigpair a b x0 x1 :
  pd2 b -> eigpair a b (lam1 a b) x0 x1 ->
  eigpair a b (lam2 a b) (fst (bperp b (x0, x1))) (snd (bperp b (x0, x1))).
Proof.
  intros Hpd [E1 E2]. pose proof (lam2_times_cD a b Hpd) as K.
  unfold bperp, eigpair; cbn [fst snd].
  pose proof (f_equal (Rmult (m10 b)) E1) as F1.
  pose proof (f_equal (Rmult (m00 b)) E2) as F2.
  pose proof (f_equal (Rmult (m11 b)) E1) as F3.
  pose proof (f_equal (Rmult (m10 b)) E2) as F4.
  split.
  - replace (lam2 a b * (m00 b * - (m10 b * x0 + m11 b * x1)
                         + m10 b * (m00 b * x0 + m10 b * x1)))
      with (- (lam2 a b * cD b) * x1) by (unfold cD; ring).
    rewrite K. unfold cB, cD. lra.
  - replace (lam2 a b * (m10 b * - (m10 b * x0 + m11 b * x1)
                         + m11 b * (m00 b * x0 + m10 b * x1)))
      with (lam2 a b * cD b * x0) by (unfold cD; ring).
    rewrite K. unfold cB, cD. lra.
Qed.

Lemma bperp_nonzero b x0 x1 :
  pd2 b -> x0 <> 0 \/ x1 <> 0 ->
  fst (bperp b (x0, x1)) <> 0 \/ snd (bperp b (x0, x1)) <> 0.
Proof.
  intros Hpd Hx. pose proof (qform_pos b Hpd x0 x1 Hx) as Q.
  unfold bperp, qform in *; cbn [fst snd].
  destruct (Req_dec_T (m00 b * x0 + m10 b * x1) 0) as [E0 | N0]; [| tauto].
  destruct (Req_dec_T (m10 b * x0 + m11 b * x1) 0) as [E1 | N1]; [| left; lra].
  exfalso.
  replace (m00 b * x0 * x0 + 2 * m10 b * x0 * x1 + m11 b * x1 * x1)
    with (x0 * (m00 b * x0 + m10 b * x1) + x1 * (m10 b * x0 + m11 b * x1)) in Q by ring.
  rewrite E0, E1 in Q. lra.
Qed.

Theorem eigh2_basis a b :
  pd2 b ->
  exists V,
    eigh2 a b = Ok ((lam1 a b, lam2 a b), V) /\
    lam1 a b <= lam2 a b /\
    eigpair a b (lam1 a b) (m00 V) (m10 V) /\
    eigpair a b (lam2 a b) (m01 V) (m11 V) /\
    qform b (m00 V) (m10 V) = 1 /\
    qform b (m01 V) (m11 V) = 1 /\
    m00 V * (m00 b * m01 V + m10 b * m11 V)
      + m10 V * (m10 b * m01 V + m11 b * m11 V) = 0.
Proof.
  intros Hpd. unfold eigh2. rewrite (pd2b_true b Hpd).
  destruct (normalize_spec b (pick a b (lam1 a b)) Hpd (pick_nonzero _ _ _))
    as (c & Hc & Hq & Hn).
  pose proof (pick_eigpair a b (lam1 a b) (lam1_root a b Hpd)) as He.
  pose proof (pick_nonzero a b (lam1 a b)) as Hnz.
  destruct (pick a b (lam1 a b)) as [p0 p1]; cbn [fst snd] in *.
  rewrite Hn; cbn [fst snd].
  assert (Hv : c * p0 <> 0 \/ c * p1 <> 0).
  { destruct Hnz; [left | right]; apply Rmult_integral_contrapositive_currified; lra. }
  pose proof (eigpair_scale a b _ p0 p1 c He) as He1.
  destruct (normalize_spec b (bperp b (c * p0, c * p1)) Hpd
              (bperp_nonzero b _ _ Hpd Hv)) as (d & Hd & Hq' & Hn').
  pose proof (bperp_eigpair a b _ _ Hpd He1) as He2.
  eexists. split; [reflexivity |]. cbn [m00 m01 m10 m11].
  rewrite Hn'. cbn [fst snd].
  split; [apply lam1_le_lam2; exact Hpd |].
  split; [exact He1 |].
  split; [apply eigpair_scale; exact He2 |].
  split; [rewrite qform_scale; exact Hq |].
  split; [rewrite qform_scale; exact Hq' |].
  unfold bperp; cbn [fst snd]. ring.
Qed.






End Eigh2.

(** ** What a run prints *)

(** The lines a computation adds to the output when run from [st]. *)
Definition printed {X} (c : py X) (st : state) : list (nat * R) :=
  skipn (length (out st)) (out (snd (c st))).

Lemma printed_of_app {X} (c : py X) st r st' evs :
  c st = (r, st') -> out st' = out st ++ evs -> printed c st = evs.
Proof.
  intros Hc Ho. unfold printed. rewrite Hc; cbn [snd]. rewrite Ho.
  rewrite skipn_app, skipn_all, Nat.sub_diag. reflexivity.
Qed.

(** Values of a printed sequence never go up. *)
Definition nonincreasing (l : list (nat * R)) : Prop :=
  forall k e e',
    nth_error l k = Some e -> nth_error l (S k) = Some e' -> snd e' <= snd e.

Section ValueLemmas.

Variables (A M B : mat).

(** The first line does not depend on the selector. *)
Lemma iter_val_first (sel : selector) (n : nat) (u : vec) :
  firstn 1 (snd (iter_val A M B sel 0 (S n) u)) =
    if Req_dec_T (dot (matvec M u) u) 0 then []
    else [(0%nat, rq A M u / PI ^ 2)].
Proof.
  cbn [iter_val]. unfold pass_val.
  destruct (Req_dec_T (dot (matvec M u) u) 0) as [Hd | Hd]; [reflexivity |].
  destruct (sel _ u) as [alpha | e]; [| reflexivity].
  destruct (iter_val A M B sel 1 n _) as [r evs]. reflexivity.
Qed.



End ValueLemmas.

(** ** The small matrices of the Rayleigh-Ritz step *)

Section Gram.

Variable n : nat.
Variable S : mat.
Hypothesis Ssym : symmetric n S.
Variables u w : vec.
Hypothesis Lu : length u = n.
Hypothesis Lw : length w = n.

Lemma small_sym : m01 (small S u w) = m10 (small S u w).
Proof.
  cbn [small m01 m10]. rewrite (Ssym u w Lu Lw). apply dot_comm.
Qed.

Lemma length_combine alpha : length (combine alpha u w) = n.
Proof.
  unfold combine. rewrite length_vadd; rewrite !length_vscale; congruence.
Qed.

(** The quadratic form of [S] on [a u + b w] is that of the small matrix. *)
Lemma quad_small a b :
  dot (matvec S (combine (a, b) u w)) (combine (a, b) u w) =
    qform (small S u w) a b.
Proof.
  rewrite quad_combine by congruence.
  unfold qform; cbn [small m00 m10 m11].
  rewrite (dot_comm (matvec S u) u), (dot_comm (matvec S w) w).
  rewrite (dot_comm (matvec S u) w).
  rewrite <- (Ssym w u Lw Lu). ring.
Qed.

(** Dependent vectors make the small matrix singular. *)
Lemma small_of_dependent a b :
  a <> 0 \/ b <> 0 -> combine (a, b) u w = vzero n -> ~ pd2 (small S u w).
Proof.
  intros Hab Hz Hpd.
  pose proof (qform_pos _ Hpd a b Hab) as Q.
  rewrite <- quad_small, Hz, dot_comm, dot_vzero_l in Q. lra.
Qed.

End Gram.

Lemma combine_unit_l n (u w : vec) :
  length u = n -> length w = n -> combine (1, 0) u w = u.
Proof.
  intros Lu Lw. unfold combine; cbn [fst snd].
  rewrite vscale_one, vscale_zero.
  replace (length w) with (length u) by congruence. apply vadd_vzero_r.
Qed.

(** Independent vectors and a positive definite [S] give a positive
    definite small matrix. *)
Lemma small_pd n (S : mat) (u w : vec) :
  symmetric n S -> posdef n S ->
  length u = n -> length w = n -> lin_indep n u w ->
  pd2 (small S u w).
Proof.
  intros Ssym Spd Lu Lw Hli.
  assert (U0 : u <> vzero n).
  { intros E. destruct (Hli 1 0) as [H1 _]; [| lra].
    change (combine (1, 0) u w = vzero n).
    rewrite (combine_unit_l n) by assumption. exact E. }
  pose proof (Spd u Lu U0) as P.
  set (p := dot u (matvec S u)) in *.
  set (q := m10 (small S u w)).
  assert (Z0 : combine (- q, p) u w <> vzero n).
  { intros E. destruct (Hli (- q) p E) as [_ Hp]. lra. }
  pose proof (Spd _ (length_combine n u w Lu Lw _) Z0) as Q.
  rewrite dot_comm, (quad_small n S Ssym u w Lu Lw) in Q.
  unfold qform in Q. fold q in Q.
  unfold pd2. cbn [small m00 m10 m11] in *. fold p. fold p in Q.
  split; [exact P |].
  set (r := dot w (matvec S w)) in *.
  assert (E : p * (- q) * (- q) + 2 * q * (- q) * p + r * p * p = p * (p * r - q * q))
    by ring.
  rewrite E in Q. subst q. cbn [small m10] in *. nra.
Qed.

(** ** The Rayleigh-Ritz step lowers the Rayleigh quotient *)

Lemma pd2_dec (b : mat2) : {pd2 b} + {~ pd2 b}.
Proof.
  unfold pd2.
  destruct (Rlt_dec 0 (m00 b)) as [H0 | H0];
    [destruct (Rlt_dec 0 (m00 b * m11 b - m10 b * m10 b)) as [H1 | H1] |];
    [left; tauto | right; tauto | right; tauto].
Qed.

Lemma qform_eigpair a b lam x0 x1 :
  eigpair a b lam x0 x1 -> qform a x0 x1 = lam * qform b x0 x1.
Proof.
  intros [E1 E2]. unfold qform.
  replace (m00 a * x0 * x0 + 2 * m10 a * x0 * x1 + m11 a * x1 * x1)
    with (x0 * (m00 a * x0 + m10 a * x1) + x1 * (m10 a * x0 + m11 a * x1)) by ring.
  rewrite E1, E2. ring.
Qed.

Lemma nonincreasing_cons e l :
  nonincreasing l ->
  (forall e', hd_error l = Some e' -> snd e' <= snd e) ->
  nonincreasing (e :: l).
Proof.
  intros Hl Hh [| k] e1 e2 H1 H2; cbn in H1, H2.
  - injection H1 as <-. apply Hh. destruct l; [discriminate | exact H2].
  - eapply Hl; eauto.
Qed.

Lemma nonincreasing_nil : nonincreasing [].
Proof. intros [| k] e e' H; discriminate. Qed.

Lemma PI2_pos : 0 < PI ^ 2.
Proof. apply pow_lt, PI_RGT_0. Qed.

Section Descent.

Variable n : nat.
Variables (A M B : mat).
Variable eigh : mat2 -> mat2 -> result ((R * R) * mat2).
Hypothesis Asym : symmetric n A.
Hypothesis Msym : symmetric n M.
Hypothesis LB : length B = n.
Hypothesis Heigh : eigh_spec eigh.

(** What a returned pair satisfies. *)
Lemma sel_rr_ok (u w : vec) (alpha : R * R) :
  sel_rr A M eigh w u = Ok alpha ->
  pd2 (small M u w) /\
  exists lam,
    eigpair (small A u w) (small M u w) lam (fst alpha) (snd alpha) /\
    qform (small M u w) (fst alpha) (snd alpha) = 1 /\
    forall mu x0 x1, x0 <> 0 \/ x1 <> 0 ->
      eigpair (small A u w) (small M u w) mu x0 x1 -> lam <= mu.
Proof.
  unfold sel_rr. intros H.
  destruct (Heigh (small A u w) (small M u w)) as [Hok Hbad].
  destruct (pd2_dec (small M u w)) as [Hpd | Hn].
  - split; [exact Hpd |].
    destruct (Hok Hpd) as (l1 & l2 & V & E & He & Hq & Hs).
    rewrite E in H. cbn [snd] in H. injection H as <-. cbn [fst snd].
    exists l1. auto.
  - rewrite (Hbad Hn) in H. discriminate.
Qed.

(** The new iterate has [M]-norm one and a Rayleigh quotient no larger
    than the old one. *)
Lemma rr_descent (u w : vec) (alpha : R * R) :
  length u = n -> length w = n ->
  sel_rr A M eigh w u = Ok alpha ->
  dot (matvec M (combine alpha u w)) (combine alpha u w) = 1 /\
  rq A M (combine alpha u w) <= rq A M u.
Proof.
  intros Lu Lw Hsel.
  destruct (sel_rr_ok u w alpha Hsel) as (Hpd & lam & He & Hq & Hs).
  destruct alpha as [a0 a1]; cbn [fst snd] in *.
  assert (QM : dot (matvec M (combine (a0, a1) u w)) (combine (a0, a1) u w) = 1).
  { rewrite (quad_small n M Msym u w Lu Lw). exact Hq. }
  split; [exact QM |].
  unfold rq at 1. rewrite QM.
  rewrite (quad_small n A Asym u w Lu Lw).
  rewrite (qform_eigpair _ _ _ _ _ He), Hq.
  replace (lam * 1 / 1) with lam by field.
  assert (L1 : lam <= lam1 (small A u w) (small M u w)).
  { apply (Hs _ (fst (Eigh2.pick (small A u w) (small M u w)
                        (lam1 (small A u w) (small M u w))))
               (snd (Eigh2.pick (small A u w) (small M u w)
                        (lam1 (small A u w) (small M u w))))).
    - apply Eigh2.pick_nonzero.
    - apply Eigh2.pick_eigpair, lam1_root; exact Hpd. }
  pose proof (lam1_le_quotient (small A u w) (small M u w) Hpd) as L2.
  destruct Hpd as [H0 _]. cbn [small m00] in *.
  unfold rq. rewrite (dot_comm (matvec A u) u), (dot_comm (matvec M u) u).
  apply (Rmult_le_reg_r (dot u (matvec M u))); [exact H0 |].
  replace (dot u (matvec A u) / dot u (matvec M u) * dot u (matvec M u))
    with (dot u (matvec A u)) by (field; lra).
  nra.
Qed.

Lemma length_search_dir rho (u : vec) : length (search_dir A M B rho u) = n.
Proof. unfold search_dir. now rewrite length_matvec. Qed.

(** The printed values of the Rayleigh-Ritz iteration never go up, and
    the first one is the Rayleigh quotient of the start vector. *)
Lemma iter_val_rr_nonincreasing (k start : nat) (u : vec) :
  length u = n ->
  nonincreasing (snd (iter_val A M B (sel_rr A M eigh) start k u)) /\
  forall e, hd_error (snd (iter_val A M B (sel_rr A M eigh) start k u)) = Some e ->
            snd e = rq A M u / PI ^ 2.
Proof.
  revert start u; induction k as [| k IH]; intros start u Lu; cbn [iter_val].
  - cbn. split; [apply nonincreasing_nil | discriminate].
  - unfold pass_val.
    destruct (Req_dec_T (dot (matvec M u) u) 0) as [Hd | Hd].
    + cbn. split; [apply nonincreasing_nil | discriminate].
    + destruct (sel_rr A M eigh _ u) as [alpha | e] eqn:Hsel.
      * pose proof (rr_descent u _ alpha Lu (length_search_dir _ u) Hsel) as [_ Hle].
        specialize (IH (S start) (combine alpha u (search_dir A M B (rq A M u) u))
                       (length_combine n u _ Lu (length_search_dir _ u) alpha)).
        destruct (iter_val A M B (sel_rr A M eigh) (S start) k _) as [r evs].
        cbn [fst snd app] in *. destruct IH as [I1 I2].
        split.
        -- apply nonincreasing_cons; [exact I1 |].
           intros e' He'. rewrite (I2 e' He'). cbn [snd].
           pose proof PI2_pos.
           apply Rmult_le_compat_r; [| exact Hle].
           apply Rlt_le, Rinv_0_lt_compat; assumption.
        -- intros e0 He0. cbn in He0. injection He0 as <-. reflexivity.
      * cbn. split.
        -- apply nonincreasing_cons; [apply nonincreasing_nil | discriminate].
        -- intros e0 He0. injection He0 as <-. reflexivity.
Qed.

End Descent.

(** ** Scaling the iterate *)





Section Scaling.

Variables (A M B : mat).









End Scaling.

(** ** Runs of a whole cell *)

Section DriverFacts.

Variables (hA hM hpc : handle).
Variables (A M B : mat).

Lemma driver_printed sc sel n r st :
  refines hA hM hpc A M B sc sel ->
  globals hA hM hpc A M B st ->
  printed (driver_n hA hM hpc sc n r) st =
    snd (iter_val A M B sel 0 n (start_vec A r)).
Proof.
  intros Href G.
  destruct (driver_sim hA hM hpc A M B sc sel Href n r st G)
    as (res & st' & Hrun & Hout & _ & _).
  eapply printed_of_app; eauto.
Qed.

Lemma driver_outcome sc sel n r st :
  refines hA hM hpc A M B sc sel ->
  globals hA hM hpc A M B st ->
  match fst (driver_n hA hM hpc sc n r st),
        fst (iter_val A M B sel 0 n (start_vec A r)) with
  | Ok hu, Ok u => store (snd (driver_n hA hM hpc sc n r st)) hu = Some (OVec u)
  | Raise e, Raise e' => e = e'
  | _, _ => False
  end.
Proof.
  intros Href G.
  destruct (driver_sim hA hM hpc A M B sc sel Href n r st G)
    as (res & st' & Hrun & _ & _ & Hres).
  rewrite Hrun; cbn [fst snd]. exact Hres.
Qed.

Lemma driver_frame sc sel n r st :
  refines hA hM hpc A M B sc sel ->
  globals hA hM hpc A M B st ->
  frame st (snd (driver_n hA hM hpc sc n r st)).
Proof.
  intros Href G.
  destruct (driver_sim hA hM hpc A M B sc sel Href n r st G)
    as (res & st' & Hrun & _ & Hfr & _).
  rewrite Hrun; exact Hfr.
Qed.




End DriverFacts.

(** ** A concrete problem of order two *)

Module Example.

Definition A2 : mat := [[1; 0]; [0; 2]].
Definition M2 : mat := [[1; 0]; [0; 1]].
(** The exact inverse of [A2] as preconditioner. *)
Definition P2 : mat := [[1; 0]; [0; 1 / 2]].

(** Where the names [A.mat], [M.mat], [pc], [u0] and [w] point. *)
Definition h_A : handle := 0%nat.
Definition h_M : handle := 1%nat.
Definition h_pc : handle := 2%nat.
Definition h_u : handle := 3%nat.
Definition h_w : handle := 4%nat.

(** The store after the set-up cells: [A.mat], [M.mat] and [pc]. *)
Definition st0 : state :=
  mkState (fun h => match h with
                    | 0%nat => Some (OMat A2)
                    | 1%nat => Some (OMat M2)
                    | 2%nat => Some (OPC P2)
                    | _ => None
                    end) 3%nat [] [].

(** The same store with two vectors for [u0] and [w]. *)
Definition with_vecs (u w : vec) : state :=
  mkState (upd (upd (store st0) h_u (OVec u)) h_w (OVec w)) 5%nat [] [].

Lemma globals_st0 : globals h_A h_M h_pc A2 M2 P2 st0.
Proof. constructor; unfold h_A, h_M, h_pc; cbn; solve [reflexivity | lia]. Qed.

Lemma globals_with_vecs u w : globals h_A h_M h_pc A2 M2 P2 (with_vecs u w).
Proof. constructor; unfold h_A, h_M, h_pc; cbn; solve [reflexivity | lia]. Qed.

Lemma vec2_inv (x : vec) :
  length x = 2%nat -> exists x0 x1, x = [x0; x1].
Proof.
  destruct x as [| x0 [| x1 [| x2 x]]]; cbn; intros H; try discriminate.
  eauto.
Qed.

Lemma vec2_nonzero x0 x1 : [x0; x1] <> vzero 2 -> x0 <> 0 \/ x1 <> 0.
Proof.
  intros H. destruct (Req_dec_T x0 0) as [E0 | N0]; [| tauto].
  destruct (Req_dec_T x1 0) as [E1 | N1]; [| tauto].
  subst. exfalso. apply H. reflexivity.
Qed.

Lemma A2_spd : spd 2 A2.
Proof.
  split; [split; [reflexivity | repeat constructor] |]. split.
  - intros x y Lx Ly.
    destruct (vec2_inv x Lx) as (x0 & x1 & ->).
    destruct (vec2_inv y Ly) as (y0 & y1 & ->). cbn. ring.
  - intros x Lx Hx. destruct (vec2_inv x Lx) as (x0 & x1 & ->).
    apply vec2_nonzero in Hx. cbn. destruct Hx; nra.
Qed.

Lemma M2_spd : spd 2 M2.
Proof.
  split; [split; [reflexivity | repeat constructor] |]. split.
  - intros x y Lx Ly.
    destruct (vec2_inv x Lx) as (x0 & x1 & ->).
    destruct (vec2_inv y Ly) as (y0 & y1 & ->). cbn. ring.
  - intros x Lx Hx. destruct (vec2_inv x Lx) as (x0 & x1 & ->).
    apply vec2_nonzero in Hx. cbn. destruct Hx; nra.
Qed.

Lemma e1_e2_independent : lin_indep 2 [1; 0] [0; 1].
Proof.
  intros a b H. cbn in H. injection H as H0 H1. split; lra.
Qed.

End Example.

(** ** Properties of the notebook's code *)

(** The direction as the notebook's text states it,
    [P^-1 (A u - rho M u)]. *)
Definition documented_dir (A M B : mat) (rho : R) (u : vec) : vec :=
  matvec B (vadd (matvec A u) (vscale (- rho) (matvec M u))).

(** The error names of the specification; the notebook raises neither. *)
Definition DegenerateIterateError : exn := "DegenerateIterateError"%string.

(** What one pass may change: the operators stay, and so does every
    object that existed before the pass except the vector [w]. *)
Definition pass_frame (hA hM hpc : handle) (A M B : mat) (hw : handle)
    (st st' : state) : Prop :=
  store st' hA = Some (OMat A) /\
  store st' hM = Some (OMat M) /\
  store st' hpc = Some (OPC B) /\
  forall h, (h < next st)%nat -> h <> hw -> store st' h = store st h.

Section Claims.

Variables (hA hM hpc : handle).
Variables (A M B : mat).

Lemma loop_body_frame sc sel st hu hw u w0 it :
  refines hA hM hpc A M B sc sel ->
  globals hA hM hpc A M B st ->
  store st hu = Some (OVec u) -> store st hw = Some (OVec w0) ->
  (hu < next st)%nat -> (hw < next st)%nat -> hu <> hw ->
  pass_frame hA hM hpc A M B hw st (snd (loop_body hA hM hpc sc hw it hu st)).
Proof.
  intros Href G Hu Hw Lu Lw Hne.
  destruct (loop_body_sim hA hM hpc A M B sc sel Href st hu hw u w0 it
              G Hu Hw Lu Lw Hne) as (r & st' & Hrun & _ & Hfr & _ & _).
  rewrite Hrun; cbn [snd].
  destruct (globals_frame_except hA hM hpc A M B hw st st' w0 G Hw Hfr)
    as [HA HM HP _ _ _].
  repeat split; auto. apply Hfr.
Qed.

Lemma loop_body_direction sc sel st hu hw u w0 it :
  refines hA hM hpc A M B sc sel ->
  globals hA hM hpc A M B st ->
  store st hu = Some (OVec u) -> store st hw = Some (OVec w0) ->
  (hu < next st)%nat -> (hw < next st)%nat -> hu <> hw ->
  dot (matvec M u) u <> 0 ->
  store (snd (loop_body hA hM hpc sc hw it hu st)) hw =
    Some (OVec (search_dir A M B (rq A M u) u)).
Proof.
  intros Href G Hu Hw Lu Lw Hne Hd.
  destruct (loop_body_sim hA hM hpc A M B sc sel Href st hu hw u w0 it
              G Hu Hw Lu Lw Hne) as (r & st' & Hrun & _ & _ & (w' & Hw' & Hdir) & _).
  rewrite Hrun; cbn [snd]. rewrite Hw'. now rewrite (Hdir Hd).
Qed.

(** C2. When [u . M u > 0], the first three lines of a pass return
    [(u . A u) / (u . M u)]; they ask PETSc for two duplicates, the two
    products [A u] and [M u] and two dot products, in this order, and
    nothing else; no output is printed and every existing object keeps
    its value (the two products land in the fresh duplicates). *)
Theorem C2_rayleigh_quotient (st : state) (hu : handle) (u : vec) :
  globals hA hM hpc A M B st ->
  store st hu = Some (OVec u) -> (hu < next st)%nat ->
  0 < dot u (matvec M u) ->
  exists Au0 Mu0 st',
    rayleigh hA hM hu st =
      (Ok (Au0, Mu0, dot u (matvec A u) / dot u (matvec M u)), st') /\
    trace st' = trace st ++ [EDuplicate hu Au0; EMult hA hu Au0;
                             EDuplicate hu Mu0; EMult hM hu Mu0;
                             EDot Au0 hu; EDot Mu0 hu] /\
    out st' = out st /\
    frame st st'.
Proof.
  intros G Hu Lu Hpos.
  assert (Hd : dot (matvec M u) u <> 0) by (rewrite dot_comm; lra).
  pose proof (rayleigh_run hA hM hpc A M B st hu u G Hu Lu Hd) as Hrun.
  rewrite (dot_comm (matvec A u) u), (dot_comm (matvec M u) u) in Hrun.
  do 3 eexists. split; [exact Hrun |]. cbn [trace out].
  split; [reflexivity |]. split; [reflexivity |].
  split; cbn [store next]; [lia |].
  intros h Hh. unfold upd. eqb_norm. reflexivity.
Qed.

(** C7, as the code has it. The division is not guarded by a tolerance:
    a zero denominator makes Python's division raise [ZeroDivisionError],
    and every nonzero denominator, however small, yields the quotient. *)
Theorem C7_division_unguarded (st : state) (hu : handle) (u : vec) :
  globals hA hM hpc A M B st ->
  store st hu = Some (OVec u) -> (hu < next st)%nat ->
  (dot (matvec M u) u = 0 ->
   fst (rayleigh hA hM hu st) = Raise ZeroDivisionError) /\
  (dot (matvec M u) u <> 0 ->
   exists Au0 Mu0, fst (rayleigh hA hM hu st) = Ok (Au0, Mu0, rq A M u)).
Proof.
  intros G Hu Lu. split; intros Hd.
  - now rewrite (rayleigh_zero hA hM hpc A M B st hu u G Hu Lu Hd).
  - rewrite (rayleigh_run hA hM hpc A M B st hu u G Hu Lu Hd). cbn [fst].
    do 2 eexists. reflexivity.
Qed.

(** C9. A pass, with either [stepChoice], leaves the two matrices and the
    preconditioner as they were; of the objects that existed before the
    pass only the vector [w] is written.  A whole cell changes no object
    that existed before it ([u0] and [w] are allocated by the cell). *)
Theorem C9_operators_unchanged eigh (st : state) (hu hw : handle) (u w0 : vec)
    (it : nat) (r : vec) :
  globals hA hM hpc A M B st ->
  store st hu = Some (OVec u) -> store st hw = Some (OVec w0) ->
  (hu < next st)%nat -> (hw < next st)%nat -> hu <> hw ->
  pass_frame hA hM hpc A M B hw st
    (snd (loop_body hA hM hpc stepChoice_const hw it hu st)) /\
  pass_frame hA hM hpc A M B hw st
    (snd (loop_body hA hM hpc (stepChoice_rr eigh) hw it hu st)) /\
  frame st (snd (driver hA hM hpc stepChoice_const r st)) /\
  frame st (snd (driver hA hM hpc (stepChoice_rr eigh) r st)).
Proof.
  intros G Hu Hw Lu Lw Hne.
  split; [| split; [| split]].
  - eapply loop_body_frame; eauto. apply stepChoice_const_refines.
  - eapply loop_body_frame; eauto. apply stepChoice_rr_refines.
  - apply (driver_frame hA hM hpc A M B _ sel_const); auto.
    apply stepChoice_const_refines.
  - apply (driver_frame hA hM hpc A M B _ (sel_rr A M eigh)); auto.
    apply stepChoice_rr_refines.
Qed.


(** C10. Both cells print the same first line: it is computed from the
    start vector before [stepChoice] is called. *)
Theorem C10_first_estimate eigh (r : vec) (st : state) :
  globals hA hM hpc A M B st ->
  firstn 1 (printed (driver hA hM hpc stepChoice_const r) st) =
    firstn 1 (printed (driver hA hM hpc (stepChoice_rr eigh) r) st) /\
  firstn 1 (printed (driver hA hM hpc stepChoice_const r) st) =
    if Req_dec_T (dot (matvec M (start_vec A r)) (start_vec A r)) 0 then []
    else [(0%nat, rq A M (start_vec A r) / PI ^ 2)].
Proof.
  intros G. unfold driver, itMax.
  rewrite (driver_printed hA hM hpc A M B _ sel_const)
    by (auto; apply stepChoice_const_refines).
  rewrite (driver_printed hA hM hpc A M B _ (sel_rr A M eigh))
    by (auto; apply stepChoice_rr_refines).
  rewrite !iter_val_first. split; reflexivity.
Qed.

End Claims.

(** [(x0, x1)] solves [a x = lam b x] for the full 2 x 2 matrices. *)
Definition eigpair_full (a b : mat2) (lam x0 x1 : R) : Prop :=
  m00 a * x0 + m01 a * x1 = lam * (m00 b * x0 + m01 b * x1) /\
  m10 a * x0 + m11 a * x1 = lam * (m10 b * x0 + m11 b * x1).

(** [u] and [w] lie on one line. *)
Definition lin_dep (n : nat) (u w : vec) : Prop :=
  exists a b, (a <> 0 \/ b <> 0) /\ combine (a, b) u w = vzero n.

Section RitzClaims.

Variables (hA hM hpc : handle).
Variables (A M B : mat).
Variable eigh : mat2 -> mat2 -> result ((R * R) * mat2).
Variable n : nat.

Lemma eigpair_full_iff (u w : vec) lam x0 x1 :
  symmetric n A -> symmetric n M -> length u = n -> length w = n ->
  (eigpair_full (small A u w) (small M u w) lam x0 x1 <->
   eigpair (small A u w) (small M u w) lam x0 x1).
Proof.
  intros SA SM Lu Lw. unfold eigpair_full, eigpair.
  rewrite (small_sym n A SA u w Lu Lw), (small_sym n M SM u w Lu Lw). tauto.
Qed.

Lemma stepChoice_rr_run st hu hw (u w : vec) :
  globals hA hM hpc A M B st ->
  store st hu = Some (OVec u) -> store st hw = Some (OVec w) ->
  (hu < next st)%nat -> (hw < next st)%nat ->
  fst (stepChoice_rr eigh hA hM hw hu st) = sel_rr A M eigh w u.
Proof.
  intros G Hu Hw Lu Lw.
  destruct (stepChoice_rr_refines hA hM hpc A M B eigh st hu hw u w G Hu Hw Lu Lw)
    as (st' & Hrun & _).
  now rewrite Hrun.
Qed.

(** C3. For independent [u], [w] and symmetric positive definite [A],
    [M], the second [stepChoice] returns a nonzero pair that solves the
    small problem [smallA v = lam smallM v] for its smallest eigenvalue
    [lam]; [smallA] and [smallM] are the matrices of the dot products
    [x . A y] and [x . M y] for [x], [y] among [u], [w]. *)
Theorem C3_rayleigh_ritz_selector (st : state) (hu hw : handle) (u w : vec) :
  eigh_spec eigh ->
  globals hA hM hpc A M B st ->
  store st hu = Some (OVec u) -> store st hw = Some (OVec w) ->
  (hu < next st)%nat -> (hw < next st)%nat ->
  spd n A -> spd n M -> length u = n -> length w = n ->
  lin_indep n u w ->
  exists om1 om2 lam,
    fst (stepChoice_rr eigh hA hM hw hu st) = Ok (om1, om2) /\
    (om1 <> 0 \/ om2 <> 0) /\
    eigpair_full (small A u w) (small M u w) lam om1 om2 /\
    forall mu x0 x1, x0 <> 0 \/ x1 <> 0 ->
      eigpair_full (small A u w) (small M u w) mu x0 x1 -> lam <= mu.
Proof.
  intros He G Hu Hw Lu Lw (_ & SA & _) (_ & SM & PM) Nu Nw Hli.
  pose proof (small_pd n M u w SM PM Nu Nw Hli) as Hpd.
  destruct (He (small A u w) (small M u w)) as [Hok _].
  destruct (Hok Hpd) as (l1 & l2 & V & E & Hp & Hq & Hs).
  exists (m00 V), (m10 V), l1.
  rewrite (stepChoice_rr_run st hu hw u w G Hu Hw Lu Lw). unfold sel_rr.
  rewrite E. cbn [snd]. split; [reflexivity |].
  split; [| split].
  - destruct (Req_dec_T (m00 V) 0) as [E0 | N0]; [| tauto].
    destruct (Req_dec_T (m10 V) 0) as [E1 | N1]; [| tauto].
    exfalso. rewrite E0, E1 in Hq. unfold qform in Hq. lra.
  - apply eigpair_full_iff; assumption.
  - intros mu x0 x1 Hx Hm. apply (Hs mu x0 x1 Hx).
    apply eigpair_full_iff in Hm; assumption.
Qed.


(** C4. With symmetric positive definite [A] and [M], the values the
    Rayleigh-Ritz cell prints never go up from one line to the next. *)
Theorem C4_rr_monotone (r : vec) (st : state) :
  eigh_spec eigh ->
  globals hA hM hpc A M B st ->
  spd n A -> spd n M -> length B = n ->
  nonincreasing (printed (driver hA hM hpc (stepChoice_rr eigh) r) st).
Proof.
  intros He G ((LA & _) & SA & _) (_ & SM & _) LB.
  unfold driver.
  rewrite (driver_printed hA hM hpc A M B _ (sel_rr A M eigh))
    by (auto; apply stepChoice_rr_refines).
  apply (iter_val_rr_nonincreasing n A M B eigh SA SM LB He).
  unfold start_vec. rewrite length_app, length_firstn, length_vzero. lia.
Qed.


End RitzClaims.

(** ** The claims on the concrete problem *)

Module Checks.

Import Example.

Lemma rq_ones : rq A2 M2 [1; 1] = 3 / 2.
Proof. unfold rq; cbn. field. Qed.

Lemma search_dir_ones : search_dir A2 M2 P2 (3 / 2) [1; 1] = [5 / 2; 7 / 4].
Proof. unfold search_dir; cbn. f_equal; [field | f_equal; field]. Qed.

Lemma documented_dir_ones :
  documented_dir A2 M2 P2 (3 / 2) [1; 1] = [- (1 / 2); 1 / 4].
Proof. unfold documented_dir; cbn. f_equal; [field | f_equal; field]. Qed.

(** The store with [u0 = (1, 1)] and [w = (0, 0)]. *)
Definition st_ones : state := with_vecs [1; 1] [0; 0].

Lemma dot_M2_ones : dot (matvec M2 [1; 1]) [1; 1] <> 0.
Proof. cbn. lra. Qed.

(** Two passes of the first cell from [(1, 1)], by hand: the quotient goes
    from 3/2 to 438/317. *)
Lemma combine_ones : combine (0.5, 0.5) [1; 1] [5 / 2; 7 / 4] = [7 / 4; 11 / 8].
Proof. unfold combine; cbn. f_equal; [lra | f_equal; lra]. Qed.

Lemma rq_second : rq A2 M2 [7 / 4; 11 / 8] = 438 / 317.
Proof. unfold rq; cbn. field. Qed.

Example const_two_passes :
  printed (driver_n h_A h_M h_pc stepChoice_const 2 [1; 1]) st0 =
    [(0%nat, 3 / 2 / PI ^ 2); (1%nat, 438 / 317 / PI ^ 2)].
Proof.
  rewrite (driver_printed h_A h_M h_pc A2 M2 P2 _ sel_const 2 [1; 1] st0
             (stepChoice_const_refines _ _ _ _ _ _) globals_st0).
  change (start_vec A2 [1; 1]) with [1; 1].
  cbn [iter_val]. unfold pass_val at 1.
  destruct (Req_dec_T (dot (matvec M2 [1; 1]) [1; 1]) 0) as [E | _];
    [exfalso; cbn in E; lra |].
  unfold sel_const at 1. rewrite rq_ones, search_dir_ones, combine_ones.
  unfold pass_val.
  destruct (Req_dec_T (dot (matvec M2 [7 / 4; 11 / 8]) [7 / 4; 11 / 8]) 0) as [E | _];
    [exfalso; cbn in E; lra |].
  unfold sel_const. rewrite rq_second. reflexivity.
Qed.

(** C1. At the iterate [u = (1, 1)] (with [A = diag(1, 2)], [M = I],
    [P^-1 = diag(1, 1/2)]) a pass of either cell leaves in [w] the vector
    [P^-1 (A u + rho M u) = (5/2, 7/4)], with a plus sign, where the
    notebook's text has [P^-1 (A u - rho M u) = (-1/2, 1/4)]. *)
Theorem C1_direction_sign :
  store (snd (loop_body h_A h_M h_pc stepChoice_const h_w 0 h_u
                st_ones)) h_w = Some (OVec [5 / 2; 7 / 4]) /\
  store (snd (loop_body h_A h_M h_pc (stepChoice_rr Eigh2.eigh2) h_w 0 h_u
                st_ones)) h_w = Some (OVec [5 / 2; 7 / 4]) /\
  documented_dir A2 M2 P2 (rq A2 M2 [1; 1]) [1; 1] = [- (1 / 2); 1 / 4] /\
  [5 / 2; 7 / 4] <> [- (1 / 2); 1 / 4].
Proof.
  assert (Hu : store st_ones h_u = Some (OVec [1; 1]))
    by reflexivity.
  assert (Hw : store st_ones h_w = Some (OVec [0; 0]))
    by reflexivity.
  assert (Lu : (h_u < next st_ones)%nat)
    by (unfold h_u; cbn; lia).
  assert (Lw : (h_w < next st_ones)%nat)
    by (unfold h_w; cbn; lia).
  assert (Hne : h_u <> h_w) by (unfold h_u, h_w; lia).
  unfold st_ones in *. repeat split.
  - rewrite (loop_body_direction h_A h_M h_pc A2 M2 P2 _ sel_const _ _ _
               [1; 1] [0; 0] 0%nat (stepChoice_const_refines _ _ _ _ _ _)
               (globals_with_vecs [1; 1] [0; 0]) Hu Hw Lu Lw Hne dot_M2_ones).
    now rewrite rq_ones, search_dir_ones.
  - rewrite (loop_body_direction h_A h_M h_pc A2 M2 P2 _ (sel_rr A2 M2 Eigh2.eigh2)
               _ _ _ [1; 1] [0; 0] 0%nat (stepChoice_rr_refines _ _ _ _ _ _ _)
               (globals_with_vecs [1; 1] [0; 0]) Hu Hw Lu Lw Hne dot_M2_ones).
    now rewrite rq_ones, search_dir_ones.
  - rewrite rq_ones. apply documented_dir_ones.
  - intros E. injection E as E0 _. lra.
Qed.

(** *** The run from the eigenvector [(1, 0)] *)

Lemma rq_e1 : rq A2 M2 [1; 0] = 1.
Proof. unfold rq; cbn. field. Qed.

Lemma search_dir_e1 : search_dir A2 M2 P2 1 [1; 0] = [2; 0].
Proof. unfold search_dir; cbn. f_equal; [field | f_equal; field]. Qed.

Lemma e1_dependent : lin_dep 2 [1; 0] [2; 0].
Proof.
  exists 2, (- 1). split; [left; lra |].
  cbn. f_equal; [ring | f_equal; ring].
Qed.

Lemma small_e1_singular (S : mat) :
  symmetric 2 S -> ~ pd2 (small S [1; 0] [2; 0]).
Proof.
  intros HS. destruct e1_dependent as (a & b & Hab & Hz).
  apply (small_of_dependent 2 S HS [1; 0] [2; 0] eq_refl eq_refl a b Hab Hz).
Qed.

Lemma pass_e1 (it : nat) :
  pass_val A2 M2 P2 (sel_rr A2 M2 Eigh2.eigh2) it [1; 0] =
    (Raise LinAlgError, [(it, 1 / PI ^ 2)]).
Proof.
  unfold pass_val.
  destruct (Req_dec_T (dot (matvec M2 [1; 0]) [1; 0]) 0) as [E | _].
  - exfalso. cbn in E. lra.
  - rewrite rq_e1, search_dir_e1. unfold sel_rr, Eigh2.eigh2.
    rewrite Eigh2.pd2b_false; [reflexivity |].
    apply small_e1_singular, M2_spd.
Qed.




(** The store with the zero iterate. *)
Definition st_zero : state := with_vecs [0; 0] [0; 0].

(** At the zero iterate the denominator is exactly zero and the pass ends
    with Python's [ZeroDivisionError], not with [DegenerateIterateError]. *)
Lemma C7_counterexample :
  dot (matvec M2 [0; 0]) [0; 0] = 0 /\
  fst (rayleigh h_A h_M h_u st_zero) = Raise ZeroDivisionError /\
  fst (rayleigh h_A h_M h_u st_zero) <> Raise DegenerateIterateError.
Proof.
  assert (D : dot (matvec M2 [0; 0]) [0; 0] = 0) by (cbn; ring).
  assert (L : (h_u < next st_zero)%nat) by (unfold h_u; cbn; lia).
  pose proof (rayleigh_zero h_A h_M h_pc A2 M2 P2 st_zero h_u [0; 0]
                (globals_with_vecs [0; 0] [0; 0]) eq_refl L D) as E.
  split; [exact D |]. rewrite E. cbn [fst]. split; [reflexivity | discriminate].
Qed.

(** *** Instances of the theorems *)

(** The store with the independent pair [u0 = (1, 0)], [w = (0, 1)]. *)
Definition st_ind : state := with_vecs [1; 0] [0; 1].

Lemma C2_witness :
  exists Au0 Mu0 st',
    rayleigh h_A h_M h_u st_ones =
      (Ok (Au0, Mu0, dot [1; 1] (matvec A2 [1; 1]) / dot [1; 1] (matvec M2 [1; 1])),
       st') /\
    trace st' = trace st_ones ++ [EDuplicate h_u Au0; EMult h_A h_u Au0;
                                  EDuplicate h_u Mu0; EMult h_M h_u Mu0;
                                  EDot Au0 h_u; EDot Mu0 h_u] /\
    out st' = out st_ones /\
    frame st_ones st'.
Proof.
  apply (C2_rayleigh_quotient h_A h_M h_pc A2 M2 P2 st_ones h_u [1; 1]).
  - apply globals_with_vecs.
  - reflexivity.
  - unfold h_u; cbn; lia.
  - cbn; lra.
Defined.

Lemma C3_witness :
  exists om1 om2 lam,
    fst (stepChoice_rr Eigh2.eigh2 h_A h_M h_w h_u st_ind) = Ok (om1, om2) /\
    (om1 <> 0 \/ om2 <> 0) /\
    eigpair_full (small A2 [1; 0] [0; 1]) (small M2 [1; 0] [0; 1]) lam om1 om2 /\
    forall mu x0 x1, x0 <> 0 \/ x1 <> 0 ->
      eigpair_full (small A2 [1; 0] [0; 1]) (small M2 [1; 0] [0; 1]) mu x0 x1 ->
      lam <= mu.
Proof.
  apply (C3_rayleigh_ritz_selector h_A h_M h_pc A2 M2 P2 Eigh2.eigh2 2
           st_ind h_u h_w [1; 0] [0; 1]).
  - exact Eigh2.eigh2_spec.
  - apply globals_with_vecs.
  - reflexivity.
  - reflexivity.
  - unfold h_u; cbn; lia.
  - unfold h_w; cbn; lia.
  - exact A2_spd.
  - exact M2_spd.
  - reflexivity.
  - reflexivity.
  - exact e1_e2_independent.
Defined.

Lemma C4_witness :
  nonincreasing
    (printed (driver h_A h_M h_pc (stepChoice_rr Eigh2.eigh2) [1; 1]) st0).
Proof.
  apply (C4_rr_monotone h_A h_M h_pc A2 M2 P2 Eigh2.eigh2 2 [1; 1] st0).
  - exact Eigh2.eigh2_spec.
  - exact globals_st0.
  - exact A2_spd.
  - exact M2_spd.
  - reflexivity.
Defined.



Lemma C7_witness :
  (dot (matvec M2 [1; 1]) [1; 1] = 0 ->
   fst (rayleigh h_A h_M h_u st_ones) = Raise ZeroDivisionError) /\
  (dot (matvec M2 [1; 1]) [1; 1] <> 0 ->
   exists Au0 Mu0,
     fst (rayleigh h_A h_M h_u st_ones) = Ok (Au0, Mu0, rq A2 M2 [1; 1])).
Proof.
  apply (C7_division_unguarded h_A h_M h_pc A2 M2 P2 st_ones h_u [1; 1]).
  - apply globals_with_vecs.
  - reflexivity.
  - unfold h_u; cbn; lia.
Defined.


Lemma C9_witness :
  pass_frame h_A h_M h_pc A2 M2 P2 h_w st_ones
    (snd (loop_body h_A h_M h_pc stepChoice_const h_w 0 h_u st_ones)) /\
  pass_frame h_A h_M h_pc A2 M2 P2 h_w st_ones
    (snd (loop_body h_A h_M h_pc (stepChoice_rr Eigh2.eigh2) h_w 0 h_u st_ones)) /\
  frame st_ones (snd (driver h_A h_M h_pc stepChoice_const [1; 1] st_ones)) /\
  frame st_ones
    (snd (driver h_A h_M h_pc (stepChoice_rr Eigh2.eigh2) [1; 1] st_ones)).
Proof.
  apply (C9_operators_unchanged h_A h_M h_pc A2 M2 P2 Eigh2.eigh2
           st_ones h_u h_w [1; 1] [0; 0] 0%nat [1; 1]).
  - apply globals_with_vecs.
  - reflexivity.
  - reflexivity.
  - unfold h_u; cbn; lia.
  - unfold h_w; cbn; lia.
  - unfold h_u, h_w; lia.
Defined.

Lemma C10_witness :
  firstn 1 (printed (driver h_A h_M h_pc stepChoice_const [1; 1]) st0) =
    firstn 1 (printed (driver h_A h_M h_pc (stepChoice_rr Eigh2.eigh2) [1; 1]) st0) /\
  firstn 1 (printed (driver h_A h_M h_pc stepChoice_const [1; 1]) st0) =
    if Req_dec_T (dot (matvec M2 (start_vec A2 [1; 1])) (start_vec A2 [1; 1])) 0
    then []
    else [(0%nat, rq A2 M2 (start_vec A2 [1; 1]) / PI ^ 2)].
Proof.
  apply (C10_first_estimate h_A h_M h_pc A2 M2 P2 Eigh2.eigh2 [1; 1] st0).
  exact globals_st0.
Defined.

End Checks.

(** * Further properties of the notebook's code *)

(** ** What the petsc4py layer is asked to do *)

(** Counting the calls of one kind in a trace. *)
Definition is_mult (e : event) : bool :=
  match e with EMult _ _ _ => true | _ => false end.
Definition is_dot (e : event) : bool :=
  match e with EDot _ _ => true | _ => false end.
Definition is_apply (e : event) : bool :=
  match e with EApply _ _ _ => true | _ => false end.

Definition count (p : event -> bool) (l : list event) : nat :=
  length (filter p l).

(** The calls a computation adds to the trace when run from [st]. *)
Definition calls {X} (c : py X) (st : state) : list event :=
  skipn (length (trace st)) (trace (snd (c st))).

Lemma calls_of_app {X} (c : py X) st r st' evs :
  c st = (r, st') -> trace st' = trace st ++ evs -> calls c st = evs.
Proof.
  intros Hc Ho. unfold calls. rewrite Hc; cbn [snd]. rewrite Ho.
  rewrite skipn_app, skipn_all, Nat.sub_diag. reflexivity.
Qed.

Section Calls.

Variables (hA hM hpc : handle).
Variables (A M B : mat).
Variable eigh : mat2 -> mat2 -> result ((R * R) * mat2).

(** The second [stepChoice], run to its end on a well-formed store. *)
Lemma stepChoice_rr_exact st hu hw (u w : vec) :
  globals hA hM hpc A M B st ->
  store st hu = Some (OVec u) -> store st hw = Some (OVec w) ->
  (hu < next st)%nat -> (hw < next st)%nat ->
  stepChoice_rr eigh hA hM hw hu st =
    (sel_rr A M eigh w u,
     mkState
       (upd (upd (upd (upd (upd (upd (upd (upd (store st)
          (next st) (OVec (vzero (length u))))
          (next st) (OVec (matvec A u)))
          (S (next st)) (OVec (vzero (length u))))
          (S (next st)) (OVec (matvec M u)))
          (S (S (next st))) (OVec (vzero (length w))))
          (S (S (next st))) (OVec (matvec A w)))
          (S (S (S (next st)))) (OVec (vzero (length w))))
          (S (S (S (next st)))) (OVec (matvec M w)))
       (S (S (S (S (next st))))) (out st)
       (trace st ++
        [EDuplicate hu (next st); EMult hA hu (next st);
         EDuplicate hu (S (next st)); EMult hM hu (S (next st));
         EDuplicate hw (S (S (next st))); EMult hA hw (S (S (next st)));
         EDuplicate hw (S (S (S (next st)))); EMult hM hw (S (S (S (next st))));
         EDot hu (next st); EDot hu (S (S (next st)));
         EDot hw (next st); EDot hw (S (S (next st)));
         EDot hu (S (next st)); EDot hu (S (S (S (next st))));
         EDot hw (S (next st)); EDot hw (S (S (S (next st))))])).
Proof.
  intros [HA HM HP LA LM LP] Hu Hw Lu Lw.
  unfold stepChoice_rr, sel_rr. run.
  unfold lift at 1, bind at 1.
  repeat rewrite <- app_assoc. cbn [app].
  destruct (eigh _ _) as [r | e]; reflexivity.
Qed.


End Calls.

Section PassCalls.

Variables (hA hM hpc : handle).
Variables (A M B : mat).
Variable eigh : mat2 -> mat2 -> result ((R * R) * mat2).

(** The store after the first six lines of a pass. *)
Definition after_direction (st : state) (hu hw : handle) (u : vec) (it : nat) : state :=
  mkState
    (upd (upd (upd (upd (upd (upd (upd (store st)
       (next st) (OVec (vzero (length u))))
       (next st) (OVec (matvec A u)))
       (S (next st)) (OVec (vzero (length u))))
       (S (next st)) (OVec (matvec M u)))
       (S (S (next st))) (OVec (vscale (rq A M u) (matvec M u))))
       (S (S (S (next st))))
         (OVec (vadd (matvec A u) (vscale (rq A M u) (matvec M u)))))
       hw (OVec (search_dir A M B (rq A M u) u)))
    (S (S (S (S (next st)))))
    (out st ++ [(it, rq A M u / PI ^ 2)])
    (trace st ++
     [EDuplicate hu (next st); EMult hA hu (next st);
      EDuplicate hu (S (next st)); EMult hM hu (S (next st));
      EDot (next st) hu; EDot (S (next st)) hu;
      EScale (S (next st)) (S (S (next st)));
      EAdd (next st) (S (S (next st))) (S (S (S (next st))));
      EApply hpc (S (S (S (next st)))) hw]).

Lemma loop_body_unfold sc st hu hw (u w0 : vec) it :
  globals hA hM hpc A M B st ->
  store st hu = Some (OVec u) -> store st hw = Some (OVec w0) ->
  (hu < next st)%nat -> (hw < next st)%nat -> hu <> hw ->
  dot (matvec M u) u <> 0 ->
  loop_body hA hM hpc sc hw it hu st =
    bind (sc hA hM hw hu) (fun alpha => update alpha hu hw)
         (after_direction st hu hw u it).
Proof.
  intros G Hu Hw Lu Lw Hne Hd. pose proof G as [HA HM HP LA LM LP].
  unfold loop_body.
  erewrite bind_ok by (apply (rayleigh_run hA hM hpc A M B); eauto).
  cbv beta iota.
  erewrite bind_ok by apply print_run. cbn [store next out trace].
  unfold direction. run.
  unfold after_direction, search_dir, rq.
  repeat rewrite <- app_assoc. reflexivity.
Qed.

Lemma after_direction_globals st hu hw (u w0 : vec) it :
  globals hA hM hpc A M B st ->
  store st hw = Some (OVec w0) ->
  globals hA hM hpc A M B (after_direction st hu hw u it).
Proof.
  intros [HA HM HP LA LM LP] Hw.
  assert (NA : hA <> hw) by (intros ->; congruence).
  assert (NM : hM <> hw) by (intros ->; congruence).
  assert (NP : hpc <> hw) by (intros ->; congruence).
  unfold after_direction. constructor; cbn [next]; first [lia | lookup].
Qed.

(** X2. A pass that gets past the division makes, in the first cell, two
    matrix-vector products, two dot products and one preconditioner
    application, and allocates seven vectors; in the second cell
    [stepChoice] multiplies by A and M again, so the pass makes six
    products, ten dot products and one preconditioner application,
    whether or not the eigensolver then raises. *)
Theorem X2_pass_calls (st : state) (hu hw : handle) (u w0 : vec) (it : nat) :
  globals hA hM hpc A M B st ->
  store st hu = Some (OVec u) -> store st hw = Some (OVec w0) ->
  (hu < next st)%nat -> (hw < next st)%nat -> hu <> hw ->
  dot (matvec M u) u <> 0 ->
  (count is_mult (calls (loop_body hA hM hpc stepChoice_const hw it hu) st) = 2%nat /\
   count is_dot (calls (loop_body hA hM hpc stepChoice_const hw it hu) st) = 2%nat /\
   count is_apply (calls (loop_body hA hM hpc stepChoice_const hw it hu) st) = 1%nat /\
   next (snd (loop_body hA hM hpc stepChoice_const hw it hu st)) = (next st + 7)%nat) /\
  (count is_mult (calls (loop_body hA hM hpc (stepChoice_rr eigh) hw it hu) st) = 6%nat /\
   count is_dot (calls (loop_body hA hM hpc (stepChoice_rr eigh) hw it hu) st) = 10%nat /\
   count is_apply (calls (loop_body hA hM hpc (stepChoice_rr eigh) hw it hu) st) = 1%nat).
Proof.
  intros G Hu Hw Lu Lw Hne Hd. pose proof G as [HA HM HP LA LM LP].
  assert (NA : hA <> hw) by (intros ->; congruence).
  assert (NM : hM <> hw) by (intros ->; congruence).
  assert (NP : hpc <> hw) by (intros ->; congruence).
  split.
  - assert (E : exists r st',
               loop_body hA hM hpc stepChoice_const hw it hu st = (r, st') /\
               next st' = (next st + 7)%nat /\
               exists evs, trace st' = trace st ++ evs /\
                 count is_mult evs = 2%nat /\ count is_dot evs = 2%nat /\
                 count is_apply evs = 1%nat).
    { rewrite (loop_body_unfold _ st hu hw u w0 it G Hu Hw Lu Lw Hne Hd).
      unfold stepChoice_const, after_direction.
      erewrite bind_ok by reflexivity.
      unfold update. run. erewrite vec_add_run by lookup.
      do 2 eexists. split; [reflexivity |]. cbn [next trace].
      split; [lia |].
      eexists. split; [repeat rewrite <- app_assoc; reflexivity |].
      cbn. auto. }
    destruct E as (r & st' & Hrun & Hn & evs & Ht & C1 & C2 & C3).
    rewrite (calls_of_app _ _ _ _ _ Hrun Ht), Hrun. cbn [snd]. auto.
  - assert (E : exists r st',
               loop_body hA hM hpc (stepChoice_rr eigh) hw it hu st = (r, st') /\
               exists evs, trace st' = trace st ++ evs /\
                 count is_mult evs = 6%nat /\ count is_dot evs = 10%nat /\
                 count is_apply evs = 1%nat).
    { rewrite (loop_body_unfold _ st hu hw u w0 it G Hu Hw Lu Lw Hne Hd).
      assert (Hu2 : store (after_direction st hu hw u it) hu = Some (OVec u))
        by (unfold after_direction; lookup).
      assert (Hw2 : store (after_direction st hu hw u it) hw
                    = Some (OVec (search_dir A M B (rq A M u) u)))
        by (unfold after_direction; lookup).
      assert (Lu2 : (hu < next (after_direction st hu hw u it))%nat)
        by (unfold after_direction; cbn [next]; lia).
      assert (Lw2 : (hw < next (after_direction st hu hw u it))%nat)
        by (unfold after_direction; cbn [next]; lia).
      pose proof (stepChoice_rr_exact hA hM hpc A M B eigh
                    (after_direction st hu hw u it) hu hw u
                    (search_dir A M B (rq A M u) u)
                    (after_direction_globals st hu hw u w0 it G Hw)
                    Hu2 Hw2 Lu2 Lw2) as E.
      destruct (sel_rr A M eigh (search_dir A M B (rq A M u) u) u) as [alpha | e].
      - erewrite bind_ok by exact E.
        unfold after_direction; cbn [store next out trace].
        unfold update. run. erewrite vec_add_run by lookup.
        do 2 eexists. split; [reflexivity |]. cbn [trace].
        eexists. split; [repeat rewrite <- app_assoc; reflexivity |].
        cbn. auto.
      - erewrite bind_raise by exact E.
        unfold after_direction; cbn [store next out trace].
        do 2 eexists. split; [reflexivity |]. cbn [trace].
        eexists. split; [repeat rewrite <- app_assoc; reflexivity |].
        cbn. auto. }
    destruct E as (r & st' & Hrun & evs & Ht & C1 & C2 & C3).
    rewrite (calls_of_app _ _ _ _ _ Hrun Ht). auto.
Qed.

End PassCalls.

(** ** The first cell never fails on positive definite data *)

(** [z . B z >= 0] for every [z]: a positive semidefinite preconditioner. *)
Definition psd (n : nat) (B : mat) : Prop :=
  forall z, length z = n -> 0 <= dot z (matvec B z).

Lemma dot_vzero_r n (x : vec) : dot x (vzero n) = 0.
Proof. rewrite dot_comm. apply dot_vzero_l. Qed.



Section ConstTotal.

Variable n : nat.
Variables (A M B : mat).
Hypothesis HA : spd n A.
Hypothesis HM : spd n M.
Hypothesis LB : length B = n.
Hypothesis HB : psd n B.

Lemma rq_pos (u : vec) : length u = n -> u <> vzero n -> 0 < rq A M u.
Proof.
  intros Lu Nu. destruct HA as (_ & _ & PA). destruct HM as (_ & _ & PM).
  pose proof (PA u Lu Nu) as pa. pose proof (PM u Lu Nu) as pm.
  unfold rq. rewrite (dot_comm (matvec A u)), (dot_comm (matvec M u)).
  apply Rmult_lt_0_compat; [exact pa | now apply Rinv_0_lt_compat].
Qed.

(** A pass of the first cell from a nonzero iterate returns a nonzero
    iterate of the same size. *)
Lemma const_pass (it : nat) (u : vec) :
  length u = n -> u <> vzero n ->
  exists u',
    pass_val A M B sel_const it u = (Ok u', [(it, rq A M u / PI ^ 2)]) /\
    length u' = n /\ u' <> vzero n.
Proof.
  intros Lu Nu.
  destruct HA as ((LA & _) & _ & PA). destruct HM as ((LM & _) & _ & PM).
  pose proof (PA u Lu Nu) as pa. pose proof (PM u Lu Nu) as pm.
  rewrite (dot_comm u) in pa, pm.
  unfold pass_val.
  destruct (Req_dec_T (dot (matvec M u) u) 0) as [Hd | Hd]; [lra |].
  unfold sel_const at 1.
  eexists. split; [reflexivity |].
  set (rho := rq A M u).
  set (z := vadd (matvec A u) (vscale rho (matvec M u))).
  assert (Lz1 : length (matvec A u) = length (vscale rho (matvec M u)))
    by (rewrite length_vscale, !length_matvec; congruence).
  assert (Lz : length z = n)
    by (unfold z; rewrite length_vadd by exact Lz1; rewrite length_matvec; exact LA).
  assert (Lw : length (search_dir A M B rho u) = n) by (apply length_search_dir; exact LB).
  split; [apply length_combine; assumption |].
  intros E.
  assert (Z : dot z (combine (0.5, 0.5) u (search_dir A M B rho u)) = 0)
    by (rewrite E; apply dot_vzero_r).
  unfold combine in Z; cbn [fst snd] in Z.
  rewrite dot_vadd_r in Z by (rewrite !length_vscale; congruence).
  rewrite !dot_vscale_r in Z.
  assert (Zu : dot z u = 2 * dot (matvec A u) u).
  { unfold z. rewrite dot_vadd_l by exact Lz1. rewrite dot_vscale_l.
    unfold rho, rq. field. exact Hd. }
  pose proof (HB z Lz) as Zw.
  change (matvec B z) with (search_dir A M B rho u) in Zw.
  rewrite Zu in Z. lra.
Qed.

Lemma const_iter (k start : nat) (u : vec) :
  length u = n -> u <> vzero n ->
  exists u',
    fst (iter_val A M B sel_const start k u) = Ok u' /\
    length u' = n /\ u' <> vzero n /\
    length (snd (iter_val A M B sel_const start k u)) = k /\
    Forall (fun e => 0 < snd e) (snd (iter_val A M B sel_const start k u)).
Proof.
  revert start u; induction k as [| k IH]; intros start u Lu Nu; cbn [iter_val].
  - exists u. cbn. repeat split; auto.
  - destruct (const_pass start u Lu Nu) as (u1 & E1 & L1 & N1).
    rewrite E1.
    destruct (IH (S start) u1 L1 N1) as (u' & Ef & L' & N' & Ln & Fa).
    destruct (iter_val A M B sel_const (S start) k u1) as [r evs].
    cbn [fst snd] in *. exists u'.
    repeat split; auto.
    + cbn. now rewrite Ln.
    + cbn. constructor; [| exact Fa]. cbn [snd].
      apply Rmult_lt_0_compat; [now apply rq_pos |].
      apply Rinv_0_lt_compat, PI2_pos.
Qed.

End ConstTotal.

(** X3. With symmetric positive definite [A] and [M], a positive
    semidefinite preconditioner and a nonzero start vector, the first cell
    never raises: it runs all [itMax] passes, prints [itMax] lines, all
    positive, and ends with a nonzero iterate of the operators' size. *)
Theorem X3_const_cell_completes (hA hM hpc : handle) (A M B : mat) (n : nat)
    (r : vec) (st : state) :
  globals hA hM hpc A M B st ->
  spd n A -> spd n M -> length B = n -> psd n B ->
  start_vec A r <> vzero n ->
  exists hu u,
    fst (driver hA hM hpc stepChoice_const r st) = Ok hu /\
    store (snd (driver hA hM hpc stepChoice_const r st)) hu = Some (OVec u) /\
    length u = n /\ u <> vzero n /\
    length (printed (driver hA hM hpc stepChoice_const r) st) = itMax /\
    Forall (fun e => 0 < snd e) (printed (driver hA hM hpc stepChoice_const r) st).
Proof.
  intros G HA HM LB HB Nz.
  assert (L0 : length (start_vec A r) = n).
  { destruct HA as ((LA & _) & _).
    unfold start_vec. rewrite length_app, length_firstn, length_vzero. lia. }
  destruct (const_iter n A M B HA HM LB HB itMax 0 (start_vec A r) L0 Nz)
    as (u' & Ef & L' & N' & Ln & Fa).
  pose proof (driver_outcome hA hM hpc A M B _ sel_const itMax r st
                (stepChoice_const_refines _ _ _ _ _ _) G) as O.
  pose proof (driver_printed hA hM hpc A M B _ sel_const itMax r st
                (stepChoice_const_refines _ _ _ _ _ _) G) as Pr.
  unfold driver. rewrite Pr. rewrite Ef in O.
  destruct (fst (driver_n hA hM hpc stepChoice_const itMax r st)) as [hu | e];
    [| contradiction].
  exists hu, u'. repeat split; auto.
Qed.

(** ** The second cell: which exception, and how good the step is *)

Lemma eigh_raises_LinAlgError eigh a b e :
  eigh_spec eigh -> eigh a b = Raise e -> e = LinAlgError.
Proof.
  intros He H. destruct (He a b) as [Hok Hbad].
  destruct (pd2_dec b) as [Hpd | Hn].
  - destruct (Hok Hpd) as (l1 & l2 & V & E & _). rewrite E in H. discriminate.
  - rewrite (Hbad Hn) in H. now injection H as <-.
Qed.

Section RitzRun.

Variable n : nat.
Variables (A M B : mat).
Variable eigh : mat2 -> mat2 -> result ((R * R) * mat2).
Hypothesis Asym : symmetric n A.
Hypothesis Msym : symmetric n M.
Hypothesis LB : length B = n.
Hypothesis Heigh : eigh_spec eigh.

Lemma sel_rr_raises (u w : vec) e :
  sel_rr A M eigh w u = Raise e -> e = LinAlgError.
Proof.
  unfold sel_rr. intros H.
  destruct (eigh (small A u w) (small M u w)) as [x | e'] eqn:E; [discriminate |].
  injection H as <-. exact (eigh_raises_LinAlgError eigh _ _ _ Heigh E).
Qed.

(** From an iterate with [u . M u <> 0] the division never raises again:
    every later iterate has [M]-norm one. *)
Lemma iter_val_rr_raise (k start : nat) (u : vec) e :
  length u = n -> dot (matvec M u) u <> 0 ->
  fst (iter_val A M B (sel_rr A M eigh) start k u) = Raise e ->
  e = LinAlgError.
Proof.
  revert start u; induction k as [| k IH]; intros start u Lu Hd; cbn [iter_val].
  - discriminate.
  - unfold pass_val.
    destruct (Req_dec_T (dot (matvec M u) u) 0) as [Hz | _]; [contradiction |].
    destruct (sel_rr A M eigh _ u) as [alpha | e'] eqn:Hsel.
    + pose proof (rr_descent n A M eigh Asym Msym Heigh u _ alpha Lu
                    (length_search_dir n A M B LB _ u) Hsel) as [Hone _].
      specialize (IH (S start) (combine alpha u (search_dir A M B (rq A M u) u))
                     (length_combine n u _ Lu (length_search_dir n A M B LB _ u) alpha)).
      destruct (iter_val A M B (sel_rr A M eigh) (S start) k _) as [r evs].
      cbn [fst] in *. apply IH. rewrite Hone. lra.
    + cbn. intros H; injection H as <-. exact (sel_rr_raises _ _ _ Hsel).
Qed.

End RitzRun.

(** X4. With symmetric positive definite [A] and [M] and a nonzero start
    vector, the second cell never ends with [ZeroDivisionError]: either it
    runs all its passes or the eigensolver's [LinAlgError] ends it. *)
Theorem X4_rr_cell_exception (hA hM hpc : handle) (A M B : mat) eigh (n : nat)
    (r : vec) (st : state) :
  eigh_spec eigh ->
  globals hA hM hpc A M B st ->
  spd n A -> spd n M -> length B = n ->
  start_vec A r <> vzero n ->
  forall e,
    fst (driver hA hM hpc (stepChoice_rr eigh) r st) = Raise e ->
    e = LinAlgError.
Proof.
  intros He G ((LA & _) & SA & _) (_ & SM & PM) LB Nz e Hr.
  assert (L0 : length (start_vec A r) = n).
  { unfold start_vec. rewrite length_app, length_firstn, length_vzero. lia. }
  pose proof (PM _ L0 Nz) as pm. rewrite dot_comm in pm.
  pose proof (driver_outcome hA hM hpc A M B _ (sel_rr A M eigh) itMax r st
                (stepChoice_rr_refines _ _ _ _ _ _ _) G) as O.
  unfold driver in Hr. rewrite Hr in O.
  destruct (fst (iter_val A M B (sel_rr A M eigh) 0 itMax (start_vec A r)))
    as [u' | e'] eqn:E; [contradiction | subst e'].
  apply (iter_val_rr_raise n A M B eigh SA SM LB He itMax 0 (start_vec A r) e L0);
    [lra | exact E].
Qed.

(** The smallest root of the pencil is below every Rayleigh quotient of
    the pencil. *)
Lemma lam1_min_quotient a b x0 x1 :
  pd2 b -> x0 <> 0 \/ x1 <> 0 ->
  lam1 a b * qform b x0 x1 <= qform a x0 x1.
Proof.
  intros Hpd Hx. pose proof (qform_pos b Hpd x0 x1 Hx) as Q.
  set (t := qform a x0 x1 / qform b x0 x1).
  assert (Ht : t * qform b x0 x1 = qform a x0 x1) by (unfold t; field; lra).
  assert (Hc : charpoly a b t <= 0).
  { unfold charpoly.
    set (n0 := m00 a - t * m00 b). set (n1 := m10 a - t * m10 b).
    set (n2 := m11 a - t * m11 b).
    assert (Hq : n0 * x0 * x0 + 2 * n1 * x0 * x1 + n2 * x1 * x1 = 0).
    { replace (n0 * x0 * x0 + 2 * n1 * x0 * x1 + n2 * x1 * x1)
        with (qform a x0 x1 - t * qform b x0 x1)
        by (unfold n0, n1, n2, qform; ring).
      lra. }
    destruct Hx as [Hx | Hx].
    - assert (K : (n0 * n2 - n1 * n1) * (x0 * x0)
                  + (n1 * x0 + n2 * x1) * (n1 * x0 + n2 * x1)
                  = n2 * (n0 * x0 * x0 + 2 * n1 * x0 * x1 + n2 * x1 * x1)) by ring.
      rewrite Hq in K.
      pose proof (Rle_0_sqr (n1 * x0 + n2 * x1)) as S1. unfold Rsqr in S1.
      assert (P : 0 < x0 * x0) by nra.
      destruct (Rle_or_lt (n0 * n2 - n1 * n1) 0) as [L | L]; [exact L |].
      pose proof (Rmult_lt_0_compat _ _ L P). lra.
    - assert (K : (n0 * n2 - n1 * n1) * (x1 * x1)
                  + (n0 * x0 + n1 * x1) * (n0 * x0 + n1 * x1)
                  = n0 * (n0 * x0 * x0 + 2 * n1 * x0 * x1 + n2 * x1 * x1)) by ring.
      rewrite Hq in K.
      pose proof (Rle_0_sqr (n0 * x0 + n1 * x1)) as S1. unfold Rsqr in S1.
      assert (P : 0 < x1 * x1) by nra.
      destruct (Rle_or_lt (n0 * n2 - n1 * n1) 0) as [L | L]; [exact L |].
      pose proof (Rmult_lt_0_compat _ _ L P). lra. }
  pose proof (lam1_least a b Hpd t Hc) as L.
  rewrite <- Ht. apply Rmult_le_compat_r; lra.
Qed.

(** X5. For independent [u], [w] and symmetric positive definite [A],
    [M], the pair the second [stepChoice] returns is optimal over the
    whole plane spanned by [u] and [w]: the Rayleigh quotient of its
    combination is not larger than that of any nonzero combination
    [a u + b w]. *)
Theorem X5_rr_step_optimal (hA hM hpc : handle) (A M B : mat) eigh (n : nat)
    (st : state) (hu hw : handle) (u w : vec) :
  eigh_spec eigh ->
  globals hA hM hpc A M B st ->
  store st hu = Some (OVec u) -> store st hw = Some (OVec w) ->
  (hu < next st)%nat -> (hw < next st)%nat ->
  spd n A -> spd n M -> length u = n -> length w = n ->
  lin_indep n u w ->
  exists alpha,
    fst (stepChoice_rr eigh hA hM hw hu st) = Ok alpha /\
    forall a b, a <> 0 \/ b <> 0 ->
      rq A M (combine alpha u w) <= rq A M (combine (a, b) u w).
Proof.
  intros He G Hu Hw Lu Lw (_ & SA & _) (_ & SM & PM) Nu Nw Hli.
  pose proof (small_pd n M u w SM PM Nu Nw Hli) as Hpd.
  rewrite (stepChoice_rr_run hA hM hpc A M B eigh st hu hw u w G Hu Hw Lu Lw).
  destruct (He (small A u w) (small M u w)) as [Hok _].
  destruct (Hok Hpd) as (l1 & l2 & V & E & Hp & Hq & Hs).
  exists (m00 V, m10 V). unfold sel_rr. rewrite E. cbn [snd].
  split; [reflexivity |]. intros a b Hab.
  unfold rq. rewrite !(quad_small n A SA u w Nu Nw), !(quad_small n M SM u w Nu Nw).
  rewrite (qform_eigpair _ _ _ _ _ Hp), Hq.
  replace (l1 * 1 / 1) with l1 by field.
  assert (L1 : l1 <= lam1 (small A u w) (small M u w)).
  { apply (Hs _ (fst (Eigh2.pick (small A u w) (small M u w)
                        (lam1 (small A u w) (small M u w))))
               (snd (Eigh2.pick (small A u w) (small M u w)
                        (lam1 (small A u w) (small M u w))))).
    - apply Eigh2.pick_nonzero.
    - apply Eigh2.pick_eigpair, lam1_root; exact Hpd. }
  pose proof (lam1_min_quotient (small A u w) (small M u w) a b Hpd Hab) as L2.
  pose proof (qform_pos (small M u w) Hpd a b Hab) as Q.
  apply (Rmult_le_reg_r (qform (small M u w) a b)); [exact Q |].
  replace (qform (small A u w) a b / qform (small M u w) a b * qform (small M u w) a b)
    with (qform (small A u w) a b) by (field; lra).
  nra.
Qed.

(** ** Starting from an eigenvector with an exact preconditioner *)

Section EigenStart.

Variables (A M B : mat).
Variable lam : R.
Variable u : vec.
Hypothesis Heig : matvec A u = vscale lam (matvec M u).
Hypothesis Hexact : matvec B (matvec A u) = u.
Hypothesis Hd : dot (matvec M u) u <> 0.






End EigenStart.



(** ** Degenerate starts and runs one after the other *)



(** X9. When the start vector has [u0 . M u0 = 0] (the zero vector, or a
    problem without degrees of freedom) both cells end in their first
    pass with [ZeroDivisionError] and print nothing. *)
Theorem X9_zero_denominator_start (hA hM hpc : handle) (A M B : mat) eigh
    (r : vec) (st : state) :
  globals hA hM hpc A M B st ->
  dot (matvec M (start_vec A r)) (start_vec A r) = 0 ->
  (fst (driver hA hM hpc stepChoice_const r st) = Raise ZeroDivisionError /\
   printed (driver hA hM hpc stepChoice_const r) st = []) /\
  (fst (driver hA hM hpc (stepChoice_rr eigh) r st) = Raise ZeroDivisionError /\
   printed (driver hA hM hpc (stepChoice_rr eigh) r) st = []).
Proof.
  intros G Hd.
  assert (V : forall sel, iter_val A M B sel 0 itMax (start_vec A r)
                          = (Raise ZeroDivisionError, [])).
  { intros sel. unfold itMax. cbn [iter_val]. unfold pass_val.
    destruct (Req_dec_T (dot (matvec M (start_vec A r)) (start_vec A r)) 0);
      [reflexivity | contradiction]. }
  split.
  - pose proof (driver_outcome hA hM hpc A M B _ sel_const itMax r st
                  (stepChoice_const_refines _ _ _ _ _ _) G) as O.
    pose proof (driver_printed hA hM hpc A M B _ sel_const itMax r st
                  (stepChoice_const_refines _ _ _ _ _ _) G) as Pr.
    rewrite V in O, Pr. cbn [fst snd] in O, Pr.
    unfold driver. rewrite Pr. split; [| reflexivity].
    destruct (fst (driver_n _ _ _ _ _ _ _)) as [h | e]; [contradiction | now subst].
  - pose proof (driver_outcome hA hM hpc A M B _ (sel_rr A M eigh) itMax r st
                  (stepChoice_rr_refines _ _ _ _ _ _ _) G) as O.
    pose proof (driver_printed hA hM hpc A M B _ (sel_rr A M eigh) itMax r st
                  (stepChoice_rr_refines _ _ _ _ _ _ _) G) as Pr.
    rewrite V in O, Pr. cbn [fst snd] in O, Pr.
    unfold driver. rewrite Pr. split; [| reflexivity].
    destruct (fst (driver_n _ _ _ _ _ _ _)) as [h | e]; [contradiction | now subst].
Qed.

(** ** The estimates of the second cell are positive *)

Section RitzPositive.

Variable n : nat.
Variables (A M B : mat).
Variable eigh : mat2 -> mat2 -> result ((R * R) * mat2).
Hypothesis HA : spd n A.
Hypothesis HM : spd n M.
Hypothesis LB : length B = n.
Hypothesis Heigh : eigh_spec eigh.

Lemma iter_val_rr_positive (k start : nat) (u : vec) :
  length u = n -> u <> vzero n ->
  Forall (fun e => 0 < snd e)
         (snd (iter_val A M B (sel_rr A M eigh) start k u)).
Proof.
  destruct HA as (_ & SA & _). destruct HM as (_ & SM & _).
  revert start u; induction k as [| k IH]; intros start u Lu Nu; cbn [iter_val].
  - constructor.
  - unfold pass_val.
    destruct (Req_dec_T (dot (matvec M u) u) 0) as [Hz | _]; [constructor |].
    assert (P : 0 < rq A M u / PI ^ 2).
    { apply Rmult_lt_0_compat; [apply (rq_pos n A M HA HM u Lu Nu) |].
      apply Rinv_0_lt_compat, PI2_pos. }
    destruct (sel_rr A M eigh _ u) as [alpha | e'] eqn:Hsel.
    + pose proof (rr_descent n A M eigh SA SM Heigh u _ alpha Lu
                    (length_search_dir n A M B LB _ u) Hsel) as [Hone _].
      assert (N1 : combine alpha u (search_dir A M B (rq A M u) u) <> vzero n).
      { intros E. rewrite E, dot_vzero_r in Hone. lra. }
      specialize (IH (S start) _
                     (length_combine n u _ Lu (length_search_dir n A M B LB _ u) alpha)
                     N1).
      destruct (iter_val A M B (sel_rr A M eigh) (S start) k _) as [r evs].
      cbn [snd app] in *. constructor; [exact P | exact IH].
    + cbn. constructor; [exact P | constructor].
Qed.

End RitzPositive.

(** X10. With symmetric positive definite [A] and [M] and a nonzero
    start vector, every value the second cell prints is positive. *)
Theorem X10_rr_cell_positive (hA hM hpc : handle) (A M B : mat) eigh (n : nat)
    (r : vec) (st : state) :
  eigh_spec eigh ->
  globals hA hM hpc A M B st ->
  spd n A -> spd n M -> length B = n ->
  start_vec A r <> vzero n ->
  Forall (fun e => 0 < snd e)
         (printed (driver hA hM hpc (stepChoice_rr eigh) r) st).
Proof.
  intros He G HA HM LB Nz.
  assert (L0 : length (start_vec A r) = n).
  { destruct HA as ((LA & _) & _).
    unfold start_vec. rewrite length_app, length_firstn, length_vzero. lia. }
  unfold driver.
  rewrite (driver_printed hA hM hpc A M B _ (sel_rr A M eigh) itMax r st
             (stepChoice_rr_refines _ _ _ _ _ _ _) G).
  now apply (iter_val_rr_positive n A M B eigh HA HM LB He).
Qed.

(** ** The further properties on the concrete problem *)

Module MoreChecks.

Import Example.

Definition eigh2 := Eigh2.eigh2.

(** The store with [u0 = (1, 1)], [w = (0, 0)] and the one with the
    independent pair [(1, 0)], [(0, 1)]. *)
Definition st_a : state := with_vecs [1; 1] [0; 0].
Definition st_b : state := with_vecs [1; 0] [0; 1].

Lemma lt_u (u w : vec) : (h_u < next (with_vecs u w))%nat.
Proof. unfold h_u; cbn; lia. Qed.

Lemma lt_w (u w : vec) : (h_w < next (with_vecs u w))%nat.
Proof. unfold h_w; cbn; lia. Qed.

Lemma u_neq_w : h_u <> h_w.
Proof. unfold h_u, h_w; lia. Qed.

Lemma P2_psd : psd 2 P2.
Proof.
  intros z Lz. destruct (vec2_inv z Lz) as (z0 & z1 & ->). cbn. nra.
Qed.

Lemma ones_nonzero : start_vec A2 [1; 1] <> vzero 2.
Proof. cbn. intros E. injection E as E0 _. lra. Qed.

Lemma dot_ones : dot (matvec M2 [1; 1]) [1; 1] <> 0.
Proof. cbn. lra. Qed.





Lemma X2_witness :
  (count is_mult (calls (loop_body h_A h_M h_pc stepChoice_const h_w 0 h_u) st_a) = 2%nat /\
   count is_dot (calls (loop_body h_A h_M h_pc stepChoice_const h_w 0 h_u) st_a) = 2%nat /\
   count is_apply (calls (loop_body h_A h_M h_pc stepChoice_const h_w 0 h_u) st_a) = 1%nat /\
   next (snd (loop_body h_A h_M h_pc stepChoice_const h_w 0 h_u st_a)) = (next st_a + 7)%nat) /\
  (count is_mult (calls (loop_body h_A h_M h_pc (stepChoice_rr eigh2) h_w 0 h_u) st_a) = 6%nat /\
   count is_dot (calls (loop_body h_A h_M h_pc (stepChoice_rr eigh2) h_w 0 h_u) st_a) = 10%nat /\
   count is_apply (calls (loop_body h_A h_M h_pc (stepChoice_rr eigh2) h_w 0 h_u) st_a) = 1%nat).
Proof.
  apply (X2_pass_calls h_A h_M h_pc A2 M2 P2 eigh2 st_a h_u h_w [1; 1] [0; 0] 0%nat).
  - apply globals_with_vecs.
  - reflexivity.
  - reflexivity.
  - apply lt_u.
  - apply lt_w.
  - exact u_neq_w.
  - exact dot_ones.
Defined.

Lemma X3_witness :
  exists hu u,
    fst (driver h_A h_M h_pc stepChoice_const [1; 1] st0) = Ok hu /\
    store (snd (driver h_A h_M h_pc stepChoice_const [1; 1] st0)) hu = Some (OVec u) /\
    length u = 2%nat /\ u <> vzero 2 /\
    length (printed (driver h_A h_M h_pc stepChoice_const [1; 1]) st0) = itMax /\
    Forall (fun e => 0 < snd e) (printed (driver h_A h_M h_pc stepChoice_const [1; 1]) st0).
Proof.
  apply (X3_const_cell_completes h_A h_M h_pc A2 M2 P2 2 [1; 1] st0).
  - exact globals_st0.
  - exact A2_spd.
  - exact M2_spd.
  - reflexivity.
  - exact P2_psd.
  - exact ones_nonzero.
Defined.

Lemma e1_nonzero : start_vec A2 [1; 0] <> vzero 2.
Proof. cbn. intros E. injection E as E0. lra. Qed.

(** The run from [(1, 0)] does raise. *)
Lemma e1_run_raises :
  fst (driver h_A h_M h_pc (stepChoice_rr eigh2) [1; 0] st0) = Raise LinAlgError.
Proof.
  pose proof (driver_outcome h_A h_M h_pc A2 M2 P2 _ (sel_rr A2 M2 eigh2)
                itMax [1; 0] st0 (stepChoice_rr_refines _ _ _ _ _ _ _) globals_st0) as O.
  change (start_vec A2 [1; 0]) with [1; 0] in O.
  unfold itMax in O. cbn [iter_val] in O.
  unfold eigh2 in O. rewrite Checks.pass_e1 in O. cbn [fst] in O.
  unfold driver, eigh2.
  destruct (fst (driver_n _ _ _ _ _ _ _)) as [h | e]; [contradiction | now subst].
Qed.

Lemma X4_witness :
  fst (driver h_A h_M h_pc (stepChoice_rr eigh2) [1; 0] st0) = Raise LinAlgError /\
  LinAlgError = LinAlgError.
Proof.
  split; [exact e1_run_raises |].
  apply (X4_rr_cell_exception h_A h_M h_pc A2 M2 P2 eigh2 2 [1; 0] st0).
  - exact Eigh2.eigh2_spec.
  - exact globals_st0.
  - exact A2_spd.
  - exact M2_spd.
  - reflexivity.
  - exact e1_nonzero.
  - exact e1_run_raises.
Defined.

Lemma X5_witness :
  exists alpha,
    fst (stepChoice_rr eigh2 h_A h_M h_w h_u st_b) = Ok alpha /\
    forall a b, a <> 0 \/ b <> 0 ->
      rq A2 M2 (combine alpha [1; 0] [0; 1]) <= rq A2 M2 (combine (a, b) [1; 0] [0; 1]).
Proof.
  apply (X5_rr_step_optimal h_A h_M h_pc A2 M2 P2 eigh2 2 st_b h_u h_w
           [1; 0] [0; 1]).
  - exact Eigh2.eigh2_spec.
  - apply globals_with_vecs.
  - reflexivity.
  - reflexivity.
  - apply lt_u.
  - apply lt_w.
  - exact A2_spd.
  - exact M2_spd.
  - reflexivity.
  - reflexivity.
  - exact e1_e2_independent.
Defined.




Lemma X9_witness :
  (fst (driver h_A h_M h_pc stepChoice_const [0; 0] st0) = Raise ZeroDivisionError /\
   printed (driver h_A h_M h_pc stepChoice_const [0; 0]) st0 = []) /\
  (fst (driver h_A h_M h_pc (stepChoice_rr eigh2) [0; 0] st0) = Raise ZeroDivisionError /\
   printed (driver h_A h_M h_pc (stepChoice_rr eigh2) [0; 0]) st0 = []).
Proof.
  apply (X9_zero_denominator_start h_A h_M h_pc A2 M2 P2 eigh2 [0; 0] st0).
  - exact globals_st0.
  - cbn. ring.
Defined.

Lemma X10_witness :
  Forall (fun e => 0 < snd e)
         (printed (driver h_A h_M h_pc (stepChoice_rr eigh2) [1; 1]) st0).
Proof.
  apply (X10_rr_cell_positive h_A h_M h_pc A2 M2 P2 eigh2 2 [1; 1] st0).
  - exact Eigh2.eigh2_spec.
  - exact globals_st0.
  - exact A2_spd.
  - exact M2_spd.
  - reflexivity.
  - exact ones_nonzero.
Defined.

End MoreChecks.
